(** * ai-mfe-test: module-federation detection and interaction mapping

    A shallow embedding of [src/core/mfe-detector.ts] and
    [src/core/interaction-mapper.ts], with the properties the
    specification states about them.

    Strings are [string] (sequences of 8-bit code units); the JavaScript
    string primitives used by the sources are written out below for ASCII
    text.  The platform classes the sources call into ([URL], the DOM) are
    interfaces here: the URL parser is a type class, the document is a
    finite tree of nodes. *)

From Stdlib Require Import Ascii Bool Arith Lia Permutation.
From stdpp Require Import gmap strings list fin_maps.

(** ** JavaScript string primitives *)

Module Js.

Definition lowerChar (c : ascii) : ascii :=
  let n := nat_of_ascii c in
  if (65 <=? n) && (n <=? 90) then ascii_of_nat (n + 32) else c.

(** [s.toLowerCase()] *)
Fixpoint toLowerCase (s : string) : string :=
  match s with
  | EmptyString => EmptyString
  | String c r => String (lowerChar c) (toLowerCase r)
  end.

(** [s.startsWith(p)] *)
Fixpoint startsWith (p s : string) : bool :=
  match p, s with
  | EmptyString, _ => true
  | String a p', String b s' => if Ascii.eqb a b then startsWith p' s' else false
  | String _ _, EmptyString => false
  end.

(** [s.includes(sub)] *)
Fixpoint includes (s sub : string) : bool :=
  startsWith sub s ||
  match s with
  | EmptyString => false
  | String _ r => includes r sub
  end.

(** The white space [trim] removes, within ASCII. *)
Definition isWhiteSpace (c : ascii) : bool :=
  let n := nat_of_ascii c in
  ((9 <=? n) && (n <=? 13)) || (n =? 32).

Fixpoint trimStart (s : string) : string :=
  match s with
  | EmptyString => EmptyString
  | String c r => if isWhiteSpace c then trimStart r else s
  end.

Fixpoint reverse (acc s : string) : string :=
  match s with
  | EmptyString => acc
  | String c r => reverse (String c acc) r
  end.

(** [s.trim()] *)
Definition trim (s : string) : string :=
  reverse "" (trimStart (reverse "" (trimStart s))).

(** Truthiness of a string value: the empty string is falsy. *)
Definition truthy (s : string) : bool :=
  match s with EmptyString => false | _ => true end.

(** Truthiness of [string | null] (the result of [getAttribute]). *)
Definition truthyOpt (o : option string) : bool :=
  match o with Some s => truthy s | None => false end.

(** [a || b] on [string | null] values. *)
Definition orElse (a b : option string) : option string :=
  if truthyOpt a then a else b.

(** [a || ''] *)
Definition orEmpty (a : option string) : string :=
  match a with Some s => s | None => "" end.

(** The double-quote character. *)
Definition dquote : ascii := ascii_of_nat 34.

(** [s.replace(/dquote/g, backslash dquote)] *)
Fixpoint escapeQuotes (s : string) : string :=
  match s with
  | EmptyString => EmptyString
  | String c r =>
      if Ascii.eqb c dquote
      then String "\"%char (String dquote (escapeQuotes r))
      else String c (escapeQuotes r)
  end.

(** [s.replace(/\./g, '-')] *)
Fixpoint replaceDots (s : string) : string :=
  match s with
  | EmptyString => EmptyString
  | String c r =>
      String (if Ascii.eqb c "."%char then "-"%char else c) (replaceDots r)
  end.

Definition isSlugChar (c : ascii) : bool :=
  let n := nat_of_ascii c in
  ((97 <=? n) && (n <=? 122)) || ((65 <=? n) && (n <=? 90)) ||
  ((48 <=? n) && (n <=? 57)) || (n =? 45).

(** [s.replace(/[^a-zA-Z0-9-]/g, '-')] *)
Fixpoint sanitize (s : string) : string :=
  match s with
  | EmptyString => EmptyString
  | String c r => String (if isSlugChar c then c else "-"%char) (sanitize r)
  end.

(** The longest prefix without a ['/']: what [[^\/]+] consumes. *)
Fixpoint untilSlash (s : string) : string :=
  match s with
  | EmptyString => EmptyString
  | String c r => if Ascii.eqb c "/"%char then EmptyString else String c (untilSlash r)
  end.

Fixpoint dropChars (n : nat) (s : string) : string :=
  match n, s with
  | O, _ => s
  | S n', String _ r => dropChars n' r
  | S _, EmptyString => EmptyString
  end.

(** [s.match(/^(https?:\/\/[^\/]+)/)], returning capture group 1. *)
Definition matchOrigin (s : string) : option string :=
  let attempt (scheme : string) :=
    if startsWith scheme s then
      let h := untilSlash (dropChars (String.length scheme) s) in
      if truthy h then Some (scheme +:+ h) else None
    else None in
  match attempt "https://" with
  | Some m => Some m
  | None => attempt "http://"
  end.

End Js.

(** ** Insertion-ordered maps

    [Map<string, V>] iterates in insertion order, which the detector's
    tie-breaks depend on: an association list with at most one entry per
    key, new keys appended at the end. *)

Module OrdMap.

Definition t (V : Type) : Type := list (string * V).

Fixpoint get {V} (k : string) (m : t V) : option V :=
  match m with
  | [] => None
  | (k', v) :: r => if String.eqb k k' then Some v else get k r
  end.

Definition has {V} (k : string) (m : t V) : bool :=
  match get k m with Some _ => true | None => false end.

(** [m.set(k, v)]: an existing key keeps its position. *)
Fixpoint set {V} (k : string) (v : V) (m : t V) : t V :=
  match m with
  | [] => [(k, v)]
  | (k', v') :: r =>
      if String.eqb k k' then (k', v) :: r else (k', v') :: set k v r
  end.

Definition keys {V} (m : t V) : list string := map fst m.

End OrdMap.

(** ** The MFE detector ([mfe-detector.ts]) *)

Module PageSnapshot.
Record t := {
  title : string;
  url : string;
  dom : string;
  scriptUrls : list string
}.
End PageSnapshot.

Record MfeInfo := {
  name : string;
  scripts : list string
}.

Record MfeAnalysis := {
  shell : string;
  mfes : list MfeInfo
}.

Module DomainGroup.
Record t := {
  domain : string;
  scripts : list string;
  hasRemoteEntry : bool;
  hasWebpackSharing : bool
}.

(** The three in-place updates of a group: [group.scripts.push(u)],
    [group.hasRemoteEntry = true], [group.hasWebpackSharing = true]. *)
Definition pushScript (u : string) (g : t) : t :=
  {| domain := g.(domain); scripts := g.(scripts) ++ [u];
     hasRemoteEntry := g.(hasRemoteEntry);
     hasWebpackSharing := g.(hasWebpackSharing) |}.

Definition setRemoteEntry (g : t) : t :=
  {| domain := g.(domain); scripts := g.(scripts);
     hasRemoteEntry := true; hasWebpackSharing := g.(hasWebpackSharing) |}.

Definition setWebpackSharing (g : t) : t :=
  {| domain := g.(domain); scripts := g.(scripts);
     hasRemoteEntry := g.(hasRemoteEntry); hasWebpackSharing := true |}.
End DomainGroup.

(** What the sources read of a parsed [URL] object. *)
Record URL := {
  protocol : string;
  host : string;
  hostname : string;
  port : string
}.

(** The platform's URL parser: [new URL(s)], [None] when it throws. *)
Class UrlParser := new_URL : string -> option URL.

Section Detector.
Context `{UrlParser}.

Definition getDomain (urlString : string) : string :=
  match new_URL urlString with
  | Some u => protocol u +:+ "//" +:+ host u
  | None =>
      match Js.matchOrigin urlString with
      | Some m => m
      | None => urlString
      end
  end.

Definition isModuleFederationScript (scriptUrl : string) : bool :=
  let urlLower := Js.toLowerCase scriptUrl in
  if Js.includes urlLower "remoteentry.js" then true
  else if Js.includes urlLower "__webpack_init_sharing__" ||
          Js.includes urlLower "webpack_sharing" then true
  else false.

(** One iteration of the loop of [groupScriptsByDomain]. *)
Definition groupStep (domainGroups : OrdMap.t DomainGroup.t) (scriptUrl : string)
  : OrdMap.t DomainGroup.t :=
  let domain := getDomain scriptUrl in
  let domainGroups :=
    if negb (OrdMap.has domain domainGroups)
    then OrdMap.set domain
           {| DomainGroup.domain := domain; DomainGroup.scripts := [];
              DomainGroup.hasRemoteEntry := false;
              DomainGroup.hasWebpackSharing := false |}
           domainGroups
    else domainGroups in
  match OrdMap.get domain domainGroups with
  | None => domainGroups
  | Some group =>
      let group := DomainGroup.pushScript scriptUrl group in
      let group :=
        if isModuleFederationScript scriptUrl then
          let group :=
            if Js.includes (Js.toLowerCase scriptUrl) "remoteentry.js"
            then DomainGroup.setRemoteEntry group else group in
          if Js.includes (Js.toLowerCase scriptUrl) "webpack_sharing" ||
             Js.includes (Js.toLowerCase scriptUrl) "__webpack_init_sharing__"
          then DomainGroup.setWebpackSharing group else group
        else group in
      OrdMap.set domain group domainGroups
  end.

Definition groupScriptsByDomain (scriptUrls : list string)
  : OrdMap.t DomainGroup.t :=
  fold_left groupStep scriptUrls [].

(** The fallback loop of [determineShell]: the state is
    [(maxScripts, shellDomain)]. *)
Definition mostScriptsStep (st : nat * string) (entry : string * DomainGroup.t)
  : nat * string :=
  let '(maxScripts, shellDomain) := st in
  let '(domain, group) := entry in
  if maxScripts <? length group.(DomainGroup.scripts)
  then (length group.(DomainGroup.scripts), domain)
  else (maxScripts, shellDomain).

Definition determineShell (domainGroups : OrdMap.t DomainGroup.t)
  (pageUrl : string) : string :=
  let pageDomain := getDomain pageUrl in
  let fromPage :=
    match OrdMap.get pageDomain domainGroups with
    | Some pageDomainGroup => negb pageDomainGroup.(DomainGroup.hasRemoteEntry)
    | None => false
    end in
  if fromPage then pageDomain
  else
    match find (fun entry => negb (snd entry).(DomainGroup.hasRemoteEntry))
               domainGroups with
    | Some (domain, _) => domain
    | None => snd (fold_left mostScriptsStep domainGroups (0, pageDomain))
    end.

Definition extractMfeName (domain : string) : string :=
  match new_URL domain with
  | Some u =>
      if String.eqb u.(hostname) "localhost" && Js.truthy u.(port)
      then "mfe-" +:+ u.(port)
      else Js.replaceDots u.(hostname)
  | None => Js.sanitize domain
  end.

(** One iteration of the loop of [detectMfe] that collects the remotes. *)
Definition remoteStep (shell : string) (mfes : list MfeInfo)
  (entry : string * DomainGroup.t) : list MfeInfo :=
  let '(domain, group) := entry in
  if String.eqb domain shell then mfes
  else if group.(DomainGroup.hasRemoteEntry) ||
          group.(DomainGroup.hasWebpackSharing)
  then mfes ++ [{| name := extractMfeName domain;
                   scripts := group.(DomainGroup.scripts) |}]
  else mfes.

Definition detectMfe (snapshot : PageSnapshot.t) : MfeAnalysis :=
  let domainGroups := groupScriptsByDomain snapshot.(PageSnapshot.scriptUrls) in
  let shell := determineShell domainGroups snapshot.(PageSnapshot.url) in
  {| shell := shell; mfes := fold_left (remoteStep shell) domainGroups [] |}.

End Detector.

(** A small instance of the parser interface, for the concrete scenarios:
    absolute [http]/[https] URLs of the shape [scheme://hostname[:port][/...]],
    with a lower-case host and a non-default decimal port. *)
Module SimpleUrl.

Fixpoint untilColon (s : string) : string :=
  match s with
  | EmptyString => EmptyString
  | String c r =>
      if Ascii.eqb c ":"%char then EmptyString else String c (untilColon r)
  end.

Definition parseAfter (scheme rest : string) : option URL :=
  let authority := Js.untilSlash rest in
  let hostname := untilColon authority in
  let port := Js.dropChars (S (String.length hostname)) authority in
  if Js.truthy hostname
  then Some {| protocol := scheme; host := authority;
               hostname := hostname; port := port |}
  else None.

Definition parse (s : string) : option URL :=
  if Js.startsWith "http://" s then parseAfter "http:" (Js.dropChars 7 s)
  else if Js.startsWith "https://" s then parseAfter "https:" (Js.dropChars 8 s)
  else None.

End SimpleUrl.

(** ** The document tree

    What the mapper reads of a parsed document: a tree of element and text
    nodes.  An element is known by its position, the child indices from the
    root listed innermost first, so that the parent is the tail. *)

Module Dom.

Record ElementData := {
  tagName : string;
  attributes : list (string * string);
  (** the [type] and [value] properties of an [HTMLInputElement] *)
  type : string;
  value : string
}.

#[warnings="-register-all"]
Inductive Node :=
| Text (data : string)
| Elem (d : ElementData) (children : list Node).

Record Element := {
  path : list nat;
  data : ElementData;
  childNodes : list Node
}.

Record Document := {
  documentElement : Node;
  (** the position of [document.body], if there is one *)
  body : option (list nat)
}.

Fixpoint lookupAttr (n : string) (l : list (string * string)) : option string :=
  match l with
  | [] => None
  | (k, v) :: r => if String.eqb k n then Some v else lookupAttr n r
  end.

Definition getAttribute (e : Element) (n : string) : option string :=
  lookupAttr n e.(data).(attributes).

Definition hasAttribute (e : Element) (n : string) : bool :=
  match getAttribute e n with Some _ => true | None => false end.

Fixpoint nodeText (n : Node) : string :=
  match n with
  | Text s => s
  | Elem _ cs =>
      (fix go (cs : list Node) : string :=
         match cs with
         | [] => ""
         | c :: r => nodeText c +:+ go r
         end) cs
  end.

Definition textContent (e : Element) : string :=
  nodeText (Elem e.(data) e.(childNodes)).

(** The elements of a subtree in document order, the root first. *)
Fixpoint elementsOf (p : list nat) (n : Node) : list Element :=
  match n with
  | Text _ => []
  | Elem d cs =>
      {| path := p; data := d; childNodes := cs |} ::
      (fix go (i : nat) (cs : list Node) : list Element :=
         match cs with
         | [] => []
         | c :: r => elementsOf (i :: p) c ++ go (S i) r
         end) 0 cs
  end.

Definition descendants (e : Element) : list Element :=
  tail (elementsOf e.(path) (Elem e.(data) e.(childNodes))).

Fixpoint nodeAt (n : Node) (forward : list nat) : option Node :=
  match forward with
  | [] => Some n
  | i :: r =>
      match n with
      | Text _ => None
      | Elem _ cs =>
          match nth_error cs i with
          | Some c => nodeAt c r
          | None => None
          end
      end
  end.

Definition elementAt (doc : Document) (p : list nat) : option Element :=
  match nodeAt doc.(documentElement) (rev p) with
  | Some (Elem d cs) => Some {| path := p; data := d; childNodes := cs |}
  | _ => None
  end.

Definition parentElement (doc : Document) (e : Element) : option Element :=
  match e.(path) with
  | [] => None
  | _ :: p => elementAt doc p
  end.

(** [e === document.body] *)
Definition isBody (doc : Document) (e : Element) : bool :=
  match doc.(body) with
  | Some p => bool_decide (e.(path) = p)
  | None => false
  end.

(** The selectors the mapper queries with: a comma-separated list of
    compounds, each a conjunction of simple selectors. *)
Inductive Simple :=
| Tag (t : string)
| HasAttr (a : string)
| AttrIs (a v : string)
| Not (s : Simple).

(** Attribute values compare exactly, except those of [type], which an
    HTML document compares without regard to ASCII case. *)
Definition attrIs (e : Element) (a v : string) : bool :=
  match getAttribute e a with
  | Some x =>
      if String.eqb a "type" then String.eqb (Js.toLowerCase x) (Js.toLowerCase v)
      else String.eqb x v
  | None => false
  end.

Fixpoint matchesSimple (e : Element) (s : Simple) : bool :=
  match s with
  | Tag t => String.eqb (Js.toLowerCase e.(data).(tagName)) t
  | HasAttr a => hasAttribute e a
  | AttrIs a v => attrIs e a v
  | Not s' => negb (matchesSimple e s')
  end.

Definition Selector := list (list Simple).

Definition matches (sel : Selector) (e : Element) : bool :=
  existsb (forallb (matchesSimple e)) sel.

Definition querySelectorAll (doc : Document) (sel : Selector) : list Element :=
  filter (fun e => matches sel e = true) (elementsOf [] doc.(documentElement)).

Definition querySelector (e : Element) (sel : Selector) : option Element :=
  head (filter (fun x => matches sel x = true) (descendants e)).

End Dom.

(** ** The interaction mapper ([interaction-mapper.ts]) *)

Module InteractiveElement.
Record t := {
  role : string;
  accessibleName : string;
  selector : string;
  tagName : string;
  mfeOwner : option string
}.
End InteractiveElement.

(** A plain object [{}] used as a map from names to arrays.  [own] holds
    its own properties, which are what [Object.entries] and the saved JSON
    show.  The key [__proto__] never becomes one of them: it is the accessor
    inherited from [Object.prototype], so assigning an array to it puts the
    array in the place of the object's prototype, and reading it gives that
    array back.  [proto] is that array, [None] as long as the prototype is
    the one the object was created with. *)
Module JsObject.

Record t (V : Type) := {
  own : gmap string V;
  proto : option V
}.
Arguments own {V} _.
Arguments proto {V} _.

Definition protoKey : string := "__proto__".

(** [{}] *)
Definition empty {V} : t V := {| own := ∅; proto := None |}.

(** [o[k] = v], for an array [v]. *)
Definition set {V} (k : string) (v : V) (o : t V) : t V :=
  if String.eqb k protoKey
  then {| own := o.(own); proto := Some v |}
  else {| own := <[ k := v ]> o.(own); proto := o.(proto) |}.

(** [o[k]], as far as it is an array the code has put there: an own
    property, or under [__proto__] the array standing for the prototype.
    [Object.prototype] itself and the members inherited from it
    ([toString], [constructor], ...) are no arrays and are not represented:
    [mapInteractions] reads a key only after assigning it, every owner
    being the name of an MFE of the analysis. *)
Definition get {V} (k : string) (o : t V) : option V :=
  if String.eqb k protoKey then o.(proto) else o.(own) !! k.

End JsObject.

(** [mfes] is a [Record<string, InteractiveElement[]>]: a plain object used
    as a map from names to buckets. *)
Module InteractionMap.
Record t := {
  shell : list InteractiveElement.t;
  mfes : JsObject.t (list InteractiveElement.t)
}.
End InteractionMap.

(** The platform's markup parser: [new JSDOM(markup).window.document]. *)
Class DomParser := JSDOM : string -> Dom.Document.

Definition lowerTag (element : Dom.Element) : string :=
  Js.toLowerCase element.(Dom.data).(Dom.tagName).

Definition getRole (element : Dom.Element) : string :=
  let explicitRole := Dom.getAttribute element "role" in
  if Js.truthyOpt explicitRole then Js.orEmpty explicitRole
  else
    let tagName := lowerTag element in
    if String.eqb tagName "button" then "button"
    else if String.eqb tagName "a" then "link"
    else if String.eqb tagName "input" then
      let inputType :=
        if Js.truthy element.(Dom.data).(Dom.type)
        then element.(Dom.data).(Dom.type) else "text" in
      if String.eqb inputType "button" || String.eqb inputType "submit" ||
         String.eqb inputType "reset" then "button"
      else if String.eqb inputType "checkbox" then "checkbox"
      else if String.eqb inputType "radio" then "radio"
      else "textbox"
    else if String.eqb tagName "select" then "combobox"
    else if String.eqb tagName "textarea" then "textbox"
    else if Dom.hasAttribute element "onclick" ||
            Dom.hasAttribute element "tabindex" then "button"
    else "generic".

(** [x && x.trim()] on the result of [getAttribute]. *)
Definition nonBlank (x : option string) : bool :=
  Js.truthyOpt x && Js.truthy (Js.trim (Js.orEmpty x)).

Definition getAccessibleName (element : Dom.Element) : string :=
  let ariaLabel := Dom.getAttribute element "aria-label" in
  if nonBlank ariaLabel then Js.trim (Js.orEmpty ariaLabel)
  else
    let textContent := Js.trim (Dom.textContent element) in
    if Js.truthy textContent && (0 <? String.length textContent) &&
       (String.eqb (lowerTag element) "a" ||
        String.eqb (lowerTag element) "button")
    then textContent
    else
      let placeholder := Dom.getAttribute element "placeholder" in
      if (String.eqb (lowerTag element) "input" ||
          String.eqb (lowerTag element) "textarea") && nonBlank placeholder
      then Js.trim (Js.orEmpty placeholder)
      else
        let title := Dom.getAttribute element "title" in
        if nonBlank title then Js.trim (Js.orEmpty title)
        else
          let value := element.(Dom.data).(Dom.value) in
          if String.eqb (lowerTag element) "input" &&
             Js.truthy value && Js.truthy (Js.trim value)
          then Js.trim value
          else
            let alt :=
              match Dom.querySelector element [[Dom.Tag "img"]] with
              | Some img => Dom.getAttribute img "alt"
              | None => None
              end in
            if nonBlank alt then Js.trim (Js.orEmpty alt)
            else lowerTag element.

(** A string holding one double quote. *)
Definition dq : string := String Js.dquote "".

Definition generateSelector (element : Dom.Element) (role : string) : string :=
  let id := Dom.getAttribute element "id" in
  if Js.truthyOpt id
  then "[role=" +:+ dq +:+ role +:+ dq +:+ "]#" +:+ Js.orEmpty id
  else
    let name := Dom.getAttribute element "name" in
    if Js.truthyOpt name &&
       (String.eqb (lowerTag element) "input" ||
        String.eqb (lowerTag element) "select")
    then "[role=" +:+ dq +:+ role +:+ dq +:+ "][name=" +:+ dq +:+
         Js.orEmpty name +:+ dq +:+ "]"
    else
      let ariaLabel := Dom.getAttribute element "aria-label" in
      if nonBlank ariaLabel
      then
        let escapedLabel := Js.escapeQuotes (Js.orEmpty ariaLabel) in
        "[role=" +:+ dq +:+ role +:+ dq +:+ "][aria-label=" +:+ dq +:+
        escapedLabel +:+ dq +:+ "]"
      else
        let accessibleName := getAccessibleName element in
        if Js.truthy accessibleName && (String.length accessibleName <? 50) &&
           (String.eqb (lowerTag element) "button" ||
            String.eqb (lowerTag element) "a")
        then lowerTag element +:+ "[role=" +:+ dq +:+ role +:+ dq +:+ "]"
        else lowerTag element +:+ "[role=" +:+ dq +:+ role +:+ dq +:+ "]".

(** The test of one container against the known MFEs: the inner [for]
    loop of [inferMfeOwner]. *)
Fixpoint containerMatch (containerText : string) (mfes : list MfeInfo)
  : option string :=
  match mfes with
  | [] => None
  | mfe :: rest =>
      let mfeNameLower := Js.toLowerCase mfe.(name) in
      if Js.includes containerText mfeNameLower ||
         Js.includes containerText "mfe" ||
         Js.includes containerText "remote" ||
         Js.includes containerText "microfrontend"
      then Some mfe.(name)
      else containerMatch containerText rest
  end.

(** The body of the [while] loop for one container: [Some n] is
    [return n], [None] goes on to the parent. *)
Definition containerCheck (current : Dom.Element) (mfeAnalysis : MfeAnalysis)
  : option string :=
  let containerId := Dom.getAttribute current "id" in
  let containerClass := Dom.getAttribute current "class" in
  if Js.truthyOpt containerId || Js.truthyOpt containerClass
  then
    let containerText :=
      Js.toLowerCase
        ((if Js.truthyOpt containerId then Js.orEmpty containerId else "") +:+
         " " +:+
         (if Js.truthyOpt containerClass then Js.orEmpty containerClass else ""))
    in containerMatch containerText mfeAnalysis.(mfes)
  else None.

(** The [while (current && current !== dom.body)] loop, [current] being
    the element at position [p] ([None] when there is none, as
    [Dom.parentElement] has it); [current.parentElement] is the element at
    the tail of [p]. *)
Fixpoint containerLoop (doc : Dom.Document) (mfeAnalysis : MfeAnalysis)
  (p : list nat) : option string :=
  match Dom.elementAt doc p with
  | None => None
  | Some current =>
      if Dom.isBody doc current then None
      else
        match containerCheck current mfeAnalysis with
        | Some n => Some n
        | None =>
            match p with
            | [] => None
            | _ :: parent => containerLoop doc mfeAnalysis parent
            end
        end
  end.

(** [None] is [undefined]: the element belongs to the shell. *)
Definition inferMfeOwner (element : Dom.Element) (mfeAnalysis : MfeAnalysis)
  (doc : Dom.Document) : option string :=
  let dataMfe :=
    Js.orElse (Dom.getAttribute element "data-mfe")
      (Js.orElse (Dom.getAttribute element "data-microfrontend")
         (Dom.getAttribute element "data-remote")) in
  let matchingMfe :=
    if Js.truthyOpt dataMfe
    then
      find (fun mfe =>
              Js.includes (Js.toLowerCase mfe.(name))
                          (Js.toLowerCase (Js.orEmpty dataMfe)) ||
              Js.includes (Js.toLowerCase (Js.orEmpty dataMfe))
                          (Js.toLowerCase mfe.(name)))
           mfeAnalysis.(mfes)
    else None in
  match matchingMfe with
  | Some mfe => Some mfe.(name)
  | None =>
      match element.(Dom.path) with
      | [] => None
      | _ :: parent => containerLoop doc mfeAnalysis parent
      end
  end.

(** The three queries of [extractInteractiveElements]. *)
Definition buttonsQuery : Dom.Selector :=
  [ [Dom.Tag "button"];
    [Dom.Tag "input"; Dom.AttrIs "type" "button"];
    [Dom.Tag "input"; Dom.AttrIs "type" "submit"];
    [Dom.Tag "input"; Dom.AttrIs "type" "reset"];
    [Dom.AttrIs "role" "button"] ].

Definition linksQuery : Dom.Selector :=
  [ [Dom.Tag "a"; Dom.HasAttr "href"];
    [Dom.AttrIs "role" "link"] ].

Definition inputsQuery : Dom.Selector :=
  [ [Dom.Tag "input"; Dom.Not (Dom.AttrIs "type" "button");
     Dom.Not (Dom.AttrIs "type" "submit"); Dom.Not (Dom.AttrIs "type" "reset")];
    [Dom.Tag "textarea"];
    [Dom.Tag "select"];
    [Dom.AttrIs "role" "textbox"];
    [Dom.AttrIs "role" "combobox"];
    [Dom.AttrIs "role" "checkbox"];
    [Dom.AttrIs "role" "radio"] ].

Definition isButtonRole (role : string) : bool := String.eqb role "button".
Definition isLinkRole (role : string) : bool := String.eqb role "link".
Definition isInputRole (role : string) : bool :=
  existsb (String.eqb role) ["textbox"; "combobox"; "checkbox"; "radio"].

(** The record one pass pushes for an element. *)
Definition describe (doc : Dom.Document) (mfeAnalysis : MfeAnalysis)
  (element : Dom.Element) (role : string) : InteractiveElement.t :=
  let accessibleName := getAccessibleName element in
  let selector := generateSelector element role in
  let mfeOwner := inferMfeOwner element mfeAnalysis doc in
  {| InteractiveElement.role := role;
     InteractiveElement.accessibleName := accessibleName;
     InteractiveElement.selector := selector;
     InteractiveElement.tagName := lowerTag element;
     InteractiveElement.mfeOwner := mfeOwner |}.

(** The state of the extraction: [elements] and [processedElements].
    Every pushed record is kept together with the element it was built
    from; the element is dropped when the list is returned. *)
Record Extraction := {
  elements : list (Dom.Element * InteractiveElement.t);
  processedElements : gset (list nat)
}.

(** The callback of one [forEach]; the three passes differ in the query
    and in the test on the role. *)
Definition visit (doc : Dom.Document) (mfeAnalysis : MfeAnalysis)
  (wanted : string -> bool) (st : Extraction) (element : Dom.Element)
  : Extraction :=
  if bool_decide (element.(Dom.path) ∈ st.(processedElements)) then st
  else
    let processed := {[ element.(Dom.path) ]} ∪ st.(processedElements) in
    let role := getRole element in
    if wanted role
    then {| elements :=
              st.(elements) ++ [(element, describe doc mfeAnalysis element role)];
            processedElements := processed |}
    else {| elements := st.(elements); processedElements := processed |}.

Definition runPass (doc : Dom.Document) (mfeAnalysis : MfeAnalysis)
  (query : Dom.Selector) (wanted : string -> bool) (st : Extraction)
  : Extraction :=
  fold_left (visit doc mfeAnalysis wanted) (Dom.querySelectorAll doc query) st.

Definition extractTagged (doc : Dom.Document) (mfeAnalysis : MfeAnalysis)
  : list (Dom.Element * InteractiveElement.t) :=
  let st := {| elements := []; processedElements := ∅ |} in
  let st := runPass doc mfeAnalysis buttonsQuery isButtonRole st in
  let st := runPass doc mfeAnalysis linksQuery isLinkRole st in
  let st := runPass doc mfeAnalysis inputsQuery isInputRole st in
  st.(elements).

Definition extractInteractiveElements (doc : Dom.Document)
  (mfeAnalysis : MfeAnalysis) : list InteractiveElement.t :=
  map snd (extractTagged doc mfeAnalysis).

(** The grouping loops of [mapInteractions]; the state is [(shell, mfes)].
    [mfes[mfe.name] = []]: *)
Definition initBucket (buckets : JsObject.t (list InteractiveElement.t))
  (mfe : MfeInfo) : JsObject.t (list InteractiveElement.t) :=
  JsObject.set mfe.(name) [] buckets.

(** [push] lengthens the array in place: the object then holds the longer
    array where it held the shorter one, be it under an own key or as its
    prototype. *)
Definition placeElement
  (st : list InteractiveElement.t * JsObject.t (list InteractiveElement.t))
  (element : InteractiveElement.t)
  : list InteractiveElement.t * JsObject.t (list InteractiveElement.t) :=
  let '(shell, buckets) := st in
  let owner := element.(InteractiveElement.mfeOwner) in
  let bucket :=
    if Js.truthyOpt owner then JsObject.get (Js.orEmpty owner) buckets else None in
  match bucket with
  | Some b => (shell, JsObject.set (Js.orEmpty owner) (b ++ [element]) buckets)
  | None => (shell ++ [element], buckets)
  end.

Definition groupElements (mfeAnalysis : MfeAnalysis)
  (elements : list InteractiveElement.t) : InteractionMap.t :=
  let buckets := fold_left initBucket mfeAnalysis.(mfes) JsObject.empty in
  let '(shell, buckets) := fold_left placeElement elements ([], buckets) in
  {| InteractionMap.shell := shell; InteractionMap.mfes := buckets |}.

Definition mapInteractions `{DomParser} (snapshot : PageSnapshot.t)
  (mfeAnalysis : MfeAnalysis) : InteractionMap.t :=
  let document := JSDOM snapshot.(PageSnapshot.dom) in
  let elements := extractInteractiveElements document mfeAnalysis in
  groupElements mfeAnalysis elements.

(** * Vocabulary of the specification

    The notions the properties are stated with, and the concrete data of
    the scenarios. *)

(** ** Tabulated maps and first occurrences *)

(** The ordered map that holds [f k] under each key [k] of [ks]. *)
Definition tabulate {V} (f : string -> V) (ks : list string) : OrdMap.t V :=
  map (fun k => (k, f k)) ks.

(** Keys in order of first occurrence. *)
Definition firstSeen (l : list string) : list string :=
  reverse (remove_dups (reverse l)).

(** ** Groups and remotes *)

Section DetectorVocabulary.
Context `{UrlParser}.

Definition isRemoteEntryUrl (u : string) : bool :=
  Js.includes (Js.toLowerCase u) "remoteentry.js".

Definition isSharingUrl (u : string) : bool :=
  Js.includes (Js.toLowerCase u) "webpack_sharing" ||
  Js.includes (Js.toLowerCase u) "__webpack_init_sharing__".

(** The scripts of one origin, in discovery order. *)
Definition scriptsOf (d : string) (urls : list string) : list string :=
  List.filter (fun u => String.eqb (getDomain u) d) urls.

(** The group of an origin, read off the list of script URLs. *)
Definition groupOf (urls : list string) (d : string) : DomainGroup.t :=
  {| DomainGroup.domain := d;
     DomainGroup.scripts := scriptsOf d urls;
     DomainGroup.hasRemoteEntry := existsb isRemoteEntryUrl (scriptsOf d urls);
     DomainGroup.hasWebpackSharing := existsb isSharingUrl (scriptsOf d urls) |}.

(** The origins of the script URLs in first-seen order. *)
Definition origins (urls : list string) : list string :=
  firstSeen (map getDomain urls).

Definition scriptCount (entry : string * DomainGroup.t) : nat :=
  length (snd entry).(DomainGroup.scripts).

(** The test of the remote-collecting loop on one entry. *)
Definition isRemoteGroup (shell : string) (entry : string * DomainGroup.t) : bool :=
  negb (String.eqb (fst entry) shell) &&
  ((snd entry).(DomainGroup.hasRemoteEntry) ||
   (snd entry).(DomainGroup.hasWebpackSharing)).

Definition toMfeInfo (entry : string * DomainGroup.t) : MfeInfo :=
  {| name := extractMfeName (fst entry);
     scripts := (snd entry).(DomainGroup.scripts) |}.

End DetectorVocabulary.

(** The scenario of the specification: a shell on port 3000 loading a
    remote entry from port 3001. *)
Definition scenario : PageSnapshot.t :=
  {| PageSnapshot.title := "";
     PageSnapshot.url := "http://localhost:3000/";
     PageSnapshot.dom := "";
     PageSnapshot.scriptUrls :=
       ["http://localhost:3000/main.js";
        "http://localhost:3001/remoteEntry.js"] |}.

(** How the platform reads a URL on localhost with a port. *)
Definition localhostUrl (p : string) : URL :=
  {| protocol := "http:"; host := "localhost:" +:+ p;
     hostname := "localhost"; port := p |}.

(** The concrete parser as an instance of the interface. *)
Definition simpleUrlParser : UrlParser := SimpleUrl.parse.

(** ** Names and selectors *)

(** The first candidate that is not empty, or the fallback. *)
Fixpoint firstNonEmpty (candidates : list string) (fallback : string) : string :=
  match candidates with
  | [] => fallback
  | c :: rest => if Js.truthy c then c else firstNonEmpty rest fallback
  end.

(** The tag name in lower case is one of [tags]. *)
Definition isTag (e : Dom.Element) (tags : list string) : bool :=
  existsb (String.eqb (lowerTag e)) tags.

(** The alt attribute of the first image inside the element. *)
Definition imageAlt (e : Dom.Element) : option string :=
  match Dom.querySelector e [[Dom.Tag "img"]] with
  | Some img => Dom.getAttribute img "alt"
  | None => None
  end.

(** The candidates for the name, in order of priority, each trimmed; a
    candidate that does not apply to the tag is empty. *)
Definition nameCandidates (e : Dom.Element) : list string :=
  [ Js.trim (Js.orEmpty (Dom.getAttribute e "aria-label"));
    if isTag e ["a"; "button"] then Js.trim (Dom.textContent e) else "";
    if isTag e ["input"; "textarea"]
    then Js.trim (Js.orEmpty (Dom.getAttribute e "placeholder")) else "";
    Js.trim (Js.orEmpty (Dom.getAttribute e "title"));
    if isTag e ["input"] then Js.trim e.(Dom.data).(Dom.value) else "";
    Js.trim (Js.orEmpty (imageAlt e)) ].

(** The four shapes of a selector. *)
Definition roleSelector (role : string) : string :=
  "[role=" +:+ dq +:+ role +:+ dq +:+ "]".

Definition idSelector (role id : string) : string :=
  roleSelector role +:+ "#" +:+ id.

Definition nameSelector (role n : string) : string :=
  roleSelector role +:+ "[name=" +:+ dq +:+ n +:+ dq +:+ "]".

Definition labelSelector (role label : string) : string :=
  roleSelector role +:+ "[aria-label=" +:+ dq +:+ Js.escapeQuotes label +:+
  dq +:+ "]".

Definition tagSelector (e : Dom.Element) (role : string) : string :=
  lowerTag e +:+ roleSelector role.

(** The element has the attribute with a value that is not empty. *)
Definition filled (e : Dom.Element) (n : string) : bool :=
  Js.truthyOpt (Dom.getAttribute e n).

(** ** Ownership *)

(** The ownership hint: the first of the three attributes whose value is
    not empty. *)
Definition hintOf (e : Dom.Element) : option string :=
  Js.orElse (Dom.getAttribute e "data-mfe")
    (Js.orElse (Dom.getAttribute e "data-microfrontend")
       (Dom.getAttribute e "data-remote")).

(** Containment either way, in lower case. *)
Definition hintMatches (hint : string) (mfe : MfeInfo) : bool :=
  Js.includes (Js.toLowerCase mfe.(name)) (Js.toLowerCase hint) ||
  Js.includes (Js.toLowerCase hint) (Js.toLowerCase mfe.(name)).

(** The text an ancestor is judged by: id, a space and class, in lower
    case. *)
Definition blobOf (c : Dom.Element) : string :=
  Js.toLowerCase (Js.orEmpty (Dom.getAttribute c "id") +:+ " " +:+
                  Js.orEmpty (Dom.getAttribute c "class")).

Definition hasMarker (blob : string) : bool :=
  Js.includes blob "mfe" || Js.includes blob "remote" ||
  Js.includes blob "microfrontend".

Definition blobMatches (blob : string) (mfe : MfeInfo) : bool :=
  Js.includes blob (Js.toLowerCase mfe.(name)) || hasMarker blob.

(** What one ancestor says about the owner. *)
Definition ancestorOwner (a : MfeAnalysis) (c : Dom.Element) : option string :=
  if filled c "id" || filled c "class"
  then name <$> find (blobMatches (blobOf c)) a.(mfes)
  else None.

(** The ancestors looked at, the nearest first: from the element at [p]
    upward, ending before the body. *)
Fixpoint walked (doc : Dom.Document) (p : list nat) : list Dom.Element :=
  match Dom.elementAt doc p with
  | None => []
  | Some c =>
      if Dom.isBody doc c then []
      else c :: match p with
                | [] => []
                | _ :: parent => walked doc parent
                end
  end.

(** The ancestors of an element that the walk looks at. *)
Definition ancestorsOf (doc : Dom.Document) (e : Dom.Element) : list Dom.Element :=
  match e.(Dom.path) with
  | [] => []
  | _ :: parent => walked doc parent
  end.

(** The first result there is, in list order. *)
Fixpoint firstSome {A B} (f : A -> option B) (l : list A) : option B :=
  match l with
  | [] => None
  | x :: r => match f x with Some y => Some y | None => firstSome f r end
  end.

(** Ownership in the three steps of the specification. *)
Definition ownerBySteps (e : Dom.Element) (a : MfeAnalysis) (doc : Dom.Document)
  : option string :=
  let hinted :=
    match hintOf e with
    | Some hint => if Js.truthy hint then find (hintMatches hint) a.(mfes) else None
    | None => None
    end in
  match hinted with
  | Some mfe => Some mfe.(name)
  | None => firstSome (ancestorOwner a) (ancestorsOf doc e)
  end.

(** The first of the three hint attributes that is present. *)
Definition firstHintPresent (e : Dom.Element) : option string :=
  match Dom.getAttribute e "data-mfe" with
  | Some v => Some v
  | None =>
      match Dom.getAttribute e "data-microfrontend" with
      | Some v => Some v
      | None => Dom.getAttribute e "data-remote"
      end
  end.

(** ** Extraction and buckets *)

(** The elements below the children [cs], the first child having index [i]. *)
Fixpoint childElements (p : list nat) (i : nat) (cs : list Dom.Node)
  : list Dom.Element :=
  match cs with
  | [] => []
  | c :: r => Dom.elementsOf (i :: p) c ++ childElements p (S i) r
  end.

(** A pushed record is the description of the element it is tagged with. *)
Definition tagged (doc : Dom.Document) (a : MfeAnalysis)
  (t : Dom.Element * InteractiveElement.t) : Prop :=
  t.2 = describe doc a t.1 (getRole t.1).

(** Every record held in the buckets of a map. *)
Definition bucketed (buckets : gmap string (list InteractiveElement.t))
  : list InteractiveElement.t :=
  mjoin (map_to_list buckets).*2.

(** Every record an object holds: in its buckets, and in the array that
    stands for its prototype. *)
Definition held (o : JsObject.t (list InteractiveElement.t))
  : list InteractiveElement.t :=
  bucketed o.(JsObject.own) ++ default [] o.(JsObject.proto).

(** The array an element is pushed to: the one read under its owner, when
    the owner is a string that is not empty and the object has an array
    there. *)
Definition bucketOf (buckets : JsObject.t (list InteractiveElement.t))
  (x : InteractiveElement.t) : option string :=
  match x.(InteractiveElement.mfeOwner) with
  | Some owner =>
      if Js.truthy owner && bool_decide (is_Some (JsObject.get owner buckets))
      then Some owner else None
  | None => None
  end.

(** The bucket the specification gives an element: its owner, when that
    is the name of a known MFE (and, as the code has it, not empty). *)
Definition ownerBucket (names : list string) (x : InteractiveElement.t)
  : option string :=
  match x.(InteractiveElement.mfeOwner) with
  | Some owner =>
      if Js.truthy owner && bool_decide (owner ∈ names) then Some owner else None
  | None => None
  end.

(** ** Documents and elements of the examples *)

(** An element with no [type] or [value] of its own. *)
Definition bare (tag : string) (attrs : list (string * string)) : Dom.ElementData :=
  {| Dom.tagName := tag; Dom.attributes := attrs;
     Dom.type := ""; Dom.value := "" |}.

(** A document whose body holds the given content; the body is the second
    child of the root. *)
Definition page (content : list Dom.Node) : Dom.Document :=
  {| Dom.documentElement :=
       Dom.Elem (bare "HTML" [])
         [Dom.Elem (bare "HEAD" []) []; Dom.Elem (bare "BODY" []) content];
     Dom.body := Some [1] |}.

Definition elementOf (p : list nat) (d : Dom.ElementData) (cs : list Dom.Node)
  : Dom.Element :=
  {| Dom.path := p; Dom.data := d; Dom.childNodes := cs |}.

Definition analysisOf (names : list string) : MfeAnalysis :=
  {| shell := "https://shell.com";
     mfes := map (fun n => {| name := n; scripts := [] |}) names |}.

(** A parser that yields the given document whatever the markup. *)
Definition parsedAs (doc : Dom.Document) : DomParser := fun _ => doc.

Definition snapshotOf (markup : string) : PageSnapshot.t :=
  {| PageSnapshot.title := ""; PageSnapshot.url := "https://shell.com/";
     PageSnapshot.dom := markup; PageSnapshot.scriptUrls := [] |}.

(** A button whose role attribute is empty. *)
Definition emptyRoleButton : Dom.Element :=
  {| Dom.path := [0; 1];
     Dom.data := {| Dom.tagName := "BUTTON"; Dom.attributes := [("role", "")];
                    Dom.type := "submit"; Dom.value := "" |};
     Dom.childNodes := [] |}.

Definition buttonElement (attrs : list (string * string)) (text : string)
  : Dom.Element :=
  {| Dom.path := [0; 1];
     Dom.data := {| Dom.tagName := "BUTTON"; Dom.attributes := attrs;
                    Dom.type := "submit"; Dom.value := "" |};
     Dom.childNodes := [Dom.Text text] |}.

Definition plainElement (tag : string) (attrs : list (string * string))
  : Dom.Element :=
  {| Dom.path := [0; 1];
     Dom.data := {| Dom.tagName := tag; Dom.attributes := attrs;
                    Dom.type := "text"; Dom.value := "" |};
     Dom.childNodes := [] |}.

(** A button carrying the role textbox, alone in the body. *)
Definition textboxButton : Dom.ElementData := bare "BUTTON" [("role", "textbox")].

(** The worked example of the specification: a button with an id, a label
    and a text, no ownership hint, and one known MFE. *)
Definition orderButton : Dom.ElementData :=
  bare "BUTTON" [("id", "btn1"); ("aria-label", "Submit Order")].

(** ** Further notions: shapes of strings *)

(** Every character of the string passes the test. *)
Fixpoint allChars (test : ascii -> bool) (s : string) : bool :=
  match s with
  | EmptyString => true
  | String c r => test c && allChars test r
  end.

(** Every double quote of the string comes right after a backslash. *)
Fixpoint quotesEscaped (afterBackslash : bool) (s : string) : bool :=
  match s with
  | EmptyString => true
  | String c r =>
      (negb (Ascii.eqb c Js.dquote) || afterBackslash) &&
      quotesEscaped (Ascii.eqb c "\"%char) r
  end.

(** A parser for which no string is a URL. *)
Definition noUrlParser : UrlParser := fun _ => None.

(** ** Further notions: ownership without a hint *)

(** No MFE is chosen by a hint attribute of the element. *)
Definition noHintMatch (e : Dom.Element) (a : MfeAnalysis) : Prop :=
  match hintOf e with
  | Some hint => hint = "" \/ find (hintMatches hint) a.(mfes) = None
  | None => True
  end.

(** ** Further notions: the order of extraction *)

(** The elements each pass takes: those its query matches, that no earlier
    query matches, and whose role the pass is after. *)
Definition takenAsButton (x : Dom.Element) : bool :=
  Dom.matches buttonsQuery x && isButtonRole (getRole x).

Definition takenAsLink (x : Dom.Element) : bool :=
  negb (Dom.matches buttonsQuery x) && Dom.matches linksQuery x &&
  isLinkRole (getRole x).

Definition takenAsInput (x : Dom.Element) : bool :=
  negb (Dom.matches buttonsQuery x) && negb (Dom.matches linksQuery x) &&
  Dom.matches inputsQuery x && isInputRole (getRole x).

(** The elements extracted, in the order of their records: buttons, then
    links, then form controls, each kind in document order. *)
Definition extractionOrder (doc : Dom.Document) : list Dom.Element :=
  let all := Dom.elementsOf [] doc.(Dom.documentElement) in
  List.filter takenAsButton all ++ List.filter takenAsLink all ++
  List.filter takenAsInput all.

(** * Properties *)

(** ** Insertion-ordered maps built by tabulating a function over keys *)

Section OrdMapFacts.
Context {V : Type}.
Implicit Types (f : string -> V) (ks : list string) (k : string) (v : V).

Lemma get_tabulate f ks k :
  OrdMap.get k (tabulate f ks) = if decide (k ∈ ks) then Some (f k) else None.
Proof.
  induction ks as [|a ks IH]; cbn [tabulate map OrdMap.get].
  - destruct (decide (k ∈ [])) as [Hin|]; [|done]. by apply elem_of_nil in Hin.
  - fold (tabulate f ks). rewrite IH.
    destruct (String.eqb_spec k a) as [->|Hne].
    + destruct (decide (a ∈ a :: ks)) as [|Hn]; [done|]. destruct Hn. left.
    + destruct (decide (k ∈ ks)) as [Hin|Hin],
        (decide (k ∈ a :: ks)) as [Hin'|Hin']; try done.
      * destruct Hin'. by right.
      * by apply elem_of_cons in Hin' as [?|?].
Qed.

Lemma get_app_fresh (m : OrdMap.t V) k v :
  OrdMap.get k m = None -> OrdMap.get k (m ++ [(k, v)]) = Some v.
Proof.
  induction m as [|[a w] m IH]; simpl.
  - by rewrite String.eqb_refl.
  - destruct (String.eqb k a); [done|apply IH].
Qed.

Lemma set_fresh (m : OrdMap.t V) k v :
  OrdMap.get k m = None -> OrdMap.set k v m = m ++ [(k, v)].
Proof.
  induction m as [|[a w] m IH]; simpl; [done|].
  destruct (String.eqb k a); [done|]. intros Hg. by rewrite IH.
Qed.

Lemma set_last (m : OrdMap.t V) k v w :
  OrdMap.get k m = None -> OrdMap.set k v (m ++ [(k, w)]) = m ++ [(k, v)].
Proof.
  induction m as [|[a x] m IH]; simpl.
  - by rewrite String.eqb_refl.
  - destruct (String.eqb k a); [done|]. intros Hg. by rewrite IH.
Qed.

Lemma set_tabulate f ks k v :
  NoDup ks -> k ∈ ks ->
  OrdMap.set k v (tabulate f ks)
  = tabulate (fun k' => if decide (k' = k) then v else f k') ks.
Proof.
  induction 1 as [|a ks Ha Hnd IH]; cbn [tabulate map OrdMap.set].
  - by intros ?%elem_of_nil.
  - intros Hin. destruct (String.eqb_spec k a) as [->|Hne].
    + destruct (decide (a = a)); [|done]. f_equal.
      apply map_ext_in. intros b Hb%list_elem_of_In.
      destruct (decide (b = a)) as [->|]; done.
    + destruct (decide (a = k)) as [->|]; [done|]. f_equal.
      apply IH. by apply elem_of_cons in Hin as [?|?].
Qed.

Lemma tabulate_ext f g ks :
  (forall k, k ∈ ks -> f k = g k) -> tabulate f ks = tabulate g ks.
Proof.
  intros Hfg. apply map_ext_in. intros k Hk%list_elem_of_In.
  by rewrite Hfg.
Qed.

Lemma keys_tabulate f ks : OrdMap.keys (tabulate f ks) = ks.
Proof.
  unfold OrdMap.keys, tabulate. rewrite map_map. simpl. apply map_id.
Qed.

End OrdMapFacts.

Lemma firstSeen_snoc l x :
  firstSeen (l ++ [x]) = if decide (x ∈ l) then firstSeen l else firstSeen l ++ [x].
Proof.
  unfold firstSeen. rewrite reverse_snoc. simpl.
  assert (Hrev : x ∈ reverse l <-> x ∈ l) by apply elem_of_reverse.
  repeat case_decide; try done; try (exfalso; tauto).
  by rewrite reverse_cons.
Qed.

Lemma elem_of_firstSeen l x : x ∈ firstSeen l <-> x ∈ l.
Proof.
  unfold firstSeen. by rewrite elem_of_reverse, elem_of_remove_dups, elem_of_reverse.
Qed.

Lemma NoDup_firstSeen l : NoDup (firstSeen l).
Proof. unfold firstSeen. rewrite reverse_Permutation. apply NoDup_remove_dups. Qed.

Example firstSeen_example :
  firstSeen ["b"; "a"; "b"; "c"; "a"] = ["b"; "a"; "c"].
Proof. reflexivity. Qed.

(** ** The domain grouper *)

Section GrouperFacts.
Context `{UrlParser}.

Lemma scriptsOf_snoc_same urls u :
  scriptsOf (getDomain u) (urls ++ [u]) = scriptsOf (getDomain u) urls ++ [u].
Proof.
  unfold scriptsOf. rewrite List.filter_app. simpl.
  by rewrite String.eqb_refl.
Qed.

Lemma scriptsOf_snoc_other urls u d :
  d <> getDomain u -> scriptsOf d (urls ++ [u]) = scriptsOf d urls.
Proof.
  intros Hne. unfold scriptsOf. rewrite List.filter_app. simpl.
  destruct (String.eqb_spec (getDomain u) d); [congruence|].
  apply app_nil_r.
Qed.

Lemma scriptsOf_absent urls d :
  d ∉ map getDomain urls -> scriptsOf d urls = [].
Proof.
  induction urls as [|u urls IH]; simpl; [done|].
  intros Hn. destruct (String.eqb_spec (getDomain u) d) as [<-|].
  - destruct Hn. left.
  - apply IH. intros Hin. apply Hn. by right.
Qed.

Lemma groupOf_snoc_other urls u d :
  d <> getDomain u -> groupOf (urls ++ [u]) d = groupOf urls d.
Proof. intros Hne. unfold groupOf. by rewrite scriptsOf_snoc_other. Qed.

(** The updates one iteration applies to the group of the script's own
    origin. *)
Lemma groupOf_snoc_same urls u :
  groupOf (urls ++ [u]) (getDomain u)
  = (let group := DomainGroup.pushScript u (groupOf urls (getDomain u)) in
     if isModuleFederationScript u then
       let group :=
         if Js.includes (Js.toLowerCase u) "remoteentry.js"
         then DomainGroup.setRemoteEntry group else group in
       if Js.includes (Js.toLowerCase u) "webpack_sharing" ||
          Js.includes (Js.toLowerCase u) "__webpack_init_sharing__"
       then DomainGroup.setWebpackSharing group else group
     else group).
Proof.
  unfold groupOf, isModuleFederationScript. rewrite scriptsOf_snoc_same.
  rewrite !existsb_app. cbn [existsb].
  unfold isRemoteEntryUrl, isSharingUrl.
  unfold DomainGroup.pushScript, DomainGroup.setRemoteEntry,
    DomainGroup.setWebpackSharing. cbn -[Js.includes Js.toLowerCase].
  destruct (Js.includes (Js.toLowerCase u) "remoteentry.js"),
    (Js.includes (Js.toLowerCase u) "webpack_sharing"),
    (Js.includes (Js.toLowerCase u) "__webpack_init_sharing__");
    cbn -[Js.includes Js.toLowerCase];
    rewrite ?orb_true_r, ?orb_false_r; reflexivity.
Qed.

Lemma groupScriptsByDomain_snoc urls u :
  groupScriptsByDomain (urls ++ [u]) = groupStep (groupScriptsByDomain urls) u.
Proof. unfold groupScriptsByDomain. by rewrite fold_left_app. Qed.

(** The grouper tabulates [groupOf] over the origins in first-seen order. *)
Lemma groupScriptsByDomain_tabulate urls :
  groupScriptsByDomain urls = tabulate (groupOf urls) (origins urls).
Proof.
  induction urls as [|u urls IH] using rev_ind; [done|].
  rewrite groupScriptsByDomain_snoc, IH. unfold origins.
  rewrite map_app. cbn [map]. rewrite firstSeen_snoc.
  fold (origins urls). unfold groupStep, OrdMap.has.
  rewrite get_tabulate.
  destruct (decide (getDomain u ∈ origins urls)) as [Hin|Hnin].
  - rewrite decide_True by (by apply elem_of_firstSeen).
    cbn [negb]. rewrite get_tabulate, decide_True by done.
    rewrite set_tabulate by (done || apply NoDup_firstSeen).
    apply tabulate_ext. intros d Hd.
    destruct (decide (d = getDomain u)) as [->|Hne].
    + by rewrite groupOf_snoc_same.
    + by rewrite groupOf_snoc_other.
  - assert (Hfresh : getDomain u ∉ map getDomain urls).
    { intros Hin. by apply Hnin, elem_of_firstSeen. }
    rewrite decide_False by done. cbn [negb].
    assert (Hnone : OrdMap.get (getDomain u) (tabulate (groupOf urls) (origins urls)) = None).
    { rewrite get_tabulate. by rewrite decide_False. }
    rewrite (set_fresh _ _ _ Hnone), (get_app_fresh _ _ _ Hnone).
    rewrite (set_last _ _ _ _ Hnone).
    unfold tabulate at 2. rewrite map_app. cbn [map]. f_equal.
    + apply tabulate_ext. intros d Hd. rewrite groupOf_snoc_other; [done|].
      intros ->. by apply Hnin.
    + rewrite groupOf_snoc_same. do 2 f_equal.
      unfold groupOf. by rewrite scriptsOf_absent.
Qed.

End GrouperFacts.

(** ** Facts about the string primitives *)

Lemma toLowerCase_app a b :
  Js.toLowerCase (a +:+ b) = Js.toLowerCase a +:+ Js.toLowerCase b.
Proof. induction a as [|c a IH]; simpl; [done|]. by rewrite IH. Qed.

Lemma startsWith_app p s : Js.startsWith p (p +:+ s) = true.
Proof.
  induction p as [|c p IH]; simpl; [done|]. by rewrite Ascii.eqb_refl.
Qed.

Lemma startsWith_refl s : Js.startsWith s s = true.
Proof.
  induction s as [|c s IH]; simpl; [done|]. by rewrite Ascii.eqb_refl.
Qed.

Lemma includes_here s sub : Js.startsWith sub s = true -> Js.includes s sub = true.
Proof. intros Hs. destruct s; simpl; by rewrite Hs. Qed.

Lemma includes_app_r a s sub :
  Js.includes s sub = true -> Js.includes (a +:+ s) sub = true.
Proof.
  intros Hs. induction a as [|c a IH]; simpl; [done|].
  rewrite IH. apply orb_true_r.
Qed.

Lemma includes_suffix a sub : Js.includes (a +:+ sub) sub = true.
Proof.
  apply includes_app_r, includes_here, startsWith_refl.
Qed.

Lemma truthy_true s : Js.truthy s = true <-> s <> "".
Proof. destruct s; simpl; split; congruence. Qed.

(** ** C9: domain grouping *)

Section GrouperClaims.
Context `{UrlParser}.

Lemma elem_of_groups urls d g :
  (d, g) ∈ groupScriptsByDomain urls <-> d ∈ origins urls /\ g = groupOf urls d.
Proof.
  rewrite groupScriptsByDomain_tabulate. unfold tabulate.
  rewrite list_elem_of_fmap. split.
  - intros (k & [= -> ->] & Hk). done.
  - intros [Hd ->]. by exists d.
Qed.

Lemma get_groups urls d :
  OrdMap.get d (groupScriptsByDomain urls)
  = if decide (d ∈ origins urls) then Some (groupOf urls d) else None.
Proof. rewrite groupScriptsByDomain_tabulate. apply get_tabulate. Qed.

Lemma elem_of_scriptsOf urls d u :
  u ∈ scriptsOf d urls <-> u ∈ urls /\ getDomain u = d.
Proof.
  unfold scriptsOf. rewrite !list_elem_of_In, List.filter_In.
  by rewrite String.eqb_eq.
Qed.

Lemma existsb_scriptsOf (test : string -> bool) urls d :
  existsb test (scriptsOf d urls) = true
  <-> exists u, u ∈ urls /\ getDomain u = d /\ test u = true.
Proof.
  rewrite existsb_exists. split.
  - intros (u & Hu%list_elem_of_In%elem_of_scriptsOf & Ht). exists u. tauto.
  - intros (u & Hu & Hd & Ht). exists u. split; [|done].
    apply list_elem_of_In, elem_of_scriptsOf. done.
Qed.

(** C9.  The grouper keys its groups by origin in first-seen order; the
    group of an origin holds exactly the script URLs of that origin, in
    discovery order, so two URLs of one origin (same protocol and host
    once parsed) land in the same group; [hasRemoteEntry] is set exactly
    when one of the origin's URLs contains remoteentry.js without regard
    to case, as any URL ending in REMOTEENTRY.JS does; [hasWebpackSharing]
    exactly when one contains webpack_sharing or __webpack_init_sharing__. *)
Theorem groupScriptsByDomain_spec (urls : list string) :
  let groups := groupScriptsByDomain urls in
  OrdMap.keys groups = firstSeen (map getDomain urls) /\
  (forall d g, (d, g) ∈ groups ->
     g.(DomainGroup.domain) = d /\
     g.(DomainGroup.scripts) = List.filter (fun u => String.eqb (getDomain u) d) urls /\
     (g.(DomainGroup.hasRemoteEntry) = true <->
        exists u, u ∈ urls /\ getDomain u = d /\
          Js.includes (Js.toLowerCase u) "remoteentry.js" = true) /\
     (g.(DomainGroup.hasWebpackSharing) = true <->
        exists u, u ∈ urls /\ getDomain u = d /\
          (Js.includes (Js.toLowerCase u) "webpack_sharing" = true \/
           Js.includes (Js.toLowerCase u) "__webpack_init_sharing__" = true))) /\
  (forall u1 u2, u1 ∈ urls -> u2 ∈ urls -> getDomain u1 = getDomain u2 ->
     exists g, OrdMap.get (getDomain u1) groups = Some g /\
               OrdMap.get (getDomain u2) groups = Some g /\
               u1 ∈ g.(DomainGroup.scripts) /\ u2 ∈ g.(DomainGroup.scripts)) /\
  (forall u1 u2 a b, new_URL u1 = Some a -> new_URL u2 = Some b ->
     a.(protocol) = b.(protocol) -> a.(host) = b.(host) ->
     getDomain u1 = getDomain u2) /\
  (forall p u, u = p +:+ "REMOTEENTRY.JS" -> u ∈ urls ->
     exists g, OrdMap.get (getDomain u) groups = Some g /\
               g.(DomainGroup.hasRemoteEntry) = true).
Proof.
  cbv zeta. split; [|split; [|split; [|split]]].
  - rewrite groupScriptsByDomain_tabulate. apply keys_tabulate.
  - intros d g [Hd ->]%elem_of_groups. cbn [groupOf DomainGroup.domain
      DomainGroup.scripts DomainGroup.hasRemoteEntry DomainGroup.hasWebpackSharing].
    split; [done|]. split; [done|]. split.
    + apply existsb_scriptsOf.
    + rewrite existsb_scriptsOf. unfold isSharingUrl.
      by setoid_rewrite orb_true_iff.
  - intros u1 u2 H1 H2 Heq. exists (groupOf urls (getDomain u1)).
    rewrite <- Heq, get_groups. rewrite decide_True.
    + cbn [groupOf DomainGroup.scripts]. rewrite !elem_of_scriptsOf. done.
    + apply elem_of_firstSeen, list_elem_of_fmap. by exists u1.
  - intros u1 u2 a b Ha Hb Hp Hh. unfold getDomain. by rewrite Ha, Hb, Hp, Hh.
  - intros p u -> Hu. exists (groupOf urls (getDomain (p +:+ "REMOTEENTRY.JS"))).
    rewrite get_groups, decide_True.
    + split; [done|]. cbn [groupOf DomainGroup.hasRemoteEntry].
      apply existsb_scriptsOf. eexists. split; [done|]. split; [done|].
      unfold isRemoteEntryUrl. rewrite toLowerCase_app.
      apply includes_suffix.
    + apply elem_of_firstSeen, list_elem_of_fmap. by eexists.
Qed.

End GrouperClaims.

(** ** C1: the shell *)

Lemma get_Some_elem_of {V} (m : OrdMap.t V) k v :
  OrdMap.get k m = Some v -> (k, v) ∈ m.
Proof.
  induction m as [|[a w] m IH]; simpl; [done|].
  destruct (String.eqb_spec k a) as [->|?].
  - intros [= ->]. left.
  - intros Hg. right. by apply IH.
Qed.

Lemma find_first {A} (P : A -> bool) (before after : list A) (x : A) :
  (forall e, e ∈ before -> P e = false) -> P x = true ->
  find P (before ++ x :: after) = Some x.
Proof.
  intros Hb Hx. induction before as [|b before IH]; simpl.
  - by rewrite Hx.
  - rewrite Hb by left. apply IH. intros e He. apply Hb. by right.
Qed.

Lemma find_none {A} (P : A -> bool) (l : list A) :
  (forall e, e ∈ l -> P e = false) -> find P l = None.
Proof.
  induction l as [|b l IH]; simpl; [done|]. intros Hl.
  rewrite Hl by left. apply IH. intros e He. apply Hl. by right.
Qed.

(** The fallback loop either never finds a count above the initial one, or
    stops on the first entry among those with the largest count. *)
Lemma mostScripts_fold (l : list (string * DomainGroup.t)) (m0 : nat) (s0 : string) :
  (fold_left mostScriptsStep l (m0, s0) = (m0, s0) /\
   forall e, e ∈ l -> scriptCount e <= m0) \/
  (exists before d g after,
     l = before ++ (d, g) :: after /\
     fold_left mostScriptsStep l (m0, s0) = (scriptCount (d, g), d) /\
     m0 < scriptCount (d, g) /\
     (forall e, e ∈ before -> scriptCount e < scriptCount (d, g)) /\
     (forall e, e ∈ after -> scriptCount e <= scriptCount (d, g))).
Proof.
  induction l as [|[dx gx] l IH] using rev_ind.
  - left. split; [done|]. by intros e ?%elem_of_nil.
  - rewrite fold_left_app. cbn [fold_left].
    destruct IH as [[-> Hle]|(before & d & g & after & -> & -> & Hm0 & Hb & Ha)];
      unfold mostScriptsStep;
      change (length (DomainGroup.scripts gx)) with (scriptCount (dx, gx)).
    + destruct (Nat.ltb_spec m0 (scriptCount (dx, gx))) as [Hlt|Hge].
      * right. exists l, dx, gx, []. split; [done|]. split; [done|].
        split; [done|]. split.
        -- intros e He. specialize (Hle e He). lia.
        -- by intros e ?%elem_of_nil.
      * left. split; [done|]. intros e [He|He]%elem_of_app; [by apply Hle|].
        apply list_elem_of_singleton in He as ->. done.
    + right. destruct (Nat.ltb_spec (scriptCount (d, g)) (scriptCount (dx, gx)))
        as [Hlt|Hge].
      * exists (before ++ (d, g) :: after), dx, gx, [].
        split; [done|]. split; [done|]. split; [lia|]. split.
        -- intros e [He|He]%elem_of_app.
           ++ specialize (Hb e He). lia.
           ++ apply elem_of_cons in He as [->|He]; [done|].
              specialize (Ha e He). lia.
        -- by intros e ?%elem_of_nil.
      * exists before, d, g, (after ++ [(dx, gx)]).
        split; [by rewrite <- app_assoc|]. split; [done|]. split; [done|].
        split; [done|]. intros e [He|He]%elem_of_app; [by apply Ha|].
        apply list_elem_of_singleton in He as ->. done.
Qed.

Section ShellClaims.
Context `{UrlParser}.

Lemma groups_nonempty_scripts urls e :
  e ∈ groupScriptsByDomain urls -> 0 < scriptCount e.
Proof.
  destruct e as [d g]. intros [Hd ->]%elem_of_groups.
  apply elem_of_firstSeen, list_elem_of_fmap in Hd as (u & -> & Hu).
  unfold scriptCount. cbn [snd groupOf DomainGroup.scripts].
  assert (Hin : u ∈ scriptsOf (getDomain u) urls) by by apply elem_of_scriptsOf.
  destruct (scriptsOf (getDomain u) urls); [by apply elem_of_nil in Hin|].
  simpl. lia.
Qed.

(** C1.  The shell of a snapshot is decided by three rules, the first
    applicable one winning: (1) the page's own origin when it is among the
    grouped domains and its group has no remote entry; (2) otherwise the
    first domain, in first-seen order, whose group has no remote entry;
    (3) otherwise, every group having a remote entry, the first domain
    among those with the largest number of scripts, and the page's own
    origin when there is no domain at all. *)
Theorem determineShell_spec (snapshot : PageSnapshot.t) :
  let groups := groupScriptsByDomain snapshot.(PageSnapshot.scriptUrls) in
  let pageDomain := getDomain snapshot.(PageSnapshot.url) in
  let result := determineShell groups snapshot.(PageSnapshot.url) in
  (forall g, OrdMap.get pageDomain groups = Some g ->
     g.(DomainGroup.hasRemoteEntry) = false -> result = pageDomain) /\
  ((forall g, OrdMap.get pageDomain groups = Some g ->
      g.(DomainGroup.hasRemoteEntry) = true) ->
   forall before d g after,
     groups = before ++ (d, g) :: after ->
     (forall e, e ∈ before -> (snd e).(DomainGroup.hasRemoteEntry) = true) ->
     g.(DomainGroup.hasRemoteEntry) = false ->
     result = d) /\
  ((forall e, e ∈ groups -> (snd e).(DomainGroup.hasRemoteEntry) = true) ->
   (groups = [] -> result = pageDomain) /\
   (groups <> [] ->
    exists before d g after,
      groups = before ++ (d, g) :: after /\ result = d /\
      (forall e, e ∈ before ->
         length (snd e).(DomainGroup.scripts) < length g.(DomainGroup.scripts)) /\
      (forall e, e ∈ after ->
         length (snd e).(DomainGroup.scripts) <= length g.(DomainGroup.scripts)))).
Proof.
  cbv zeta. unfold determineShell.
  set (groups := groupScriptsByDomain _).
  set (pageDomain := getDomain _).
  split; [|split].
  - intros g -> ->. done.
  - intros Hpage before d g after Hsplit Hb Hg.
    assert (Hfrom : match OrdMap.get pageDomain groups with
                    | Some pg => negb pg.(DomainGroup.hasRemoteEntry)
                    | None => false end = false).
    { destruct (OrdMap.get pageDomain groups) as [pg|] eqn:Hget; [|done].
      by rewrite (Hpage pg). }
    rewrite Hfrom, Hsplit.
    rewrite (find_first _ before after (d, g)); [done| |by cbn; rewrite Hg].
    intros e He. by rewrite (Hb e He).
  - intros Hall.
    assert (Hfrom : match OrdMap.get pageDomain groups with
                    | Some pg => negb pg.(DomainGroup.hasRemoteEntry)
                    | None => false end = false).
    { destruct (OrdMap.get pageDomain groups) as [pg|] eqn:Hget; [|done].
      apply get_Some_elem_of in Hget. apply Hall in Hget. cbn in Hget.
      by rewrite Hget. }
    rewrite Hfrom, find_none by (intros e He; by rewrite (Hall e He)).
    split.
    + intros ->. done.
    + intros Hne.
      destruct (mostScripts_fold groups 0 pageDomain)
        as [[_ Hle]|(before & d & g & after & Hsplit & -> & _ & Hb & Ha)].
      * assert (Hpos : forall e, e ∈ groups -> 0 < scriptCount e)
          by apply groups_nonempty_scripts.
        destruct groups as [|e groups']; [done|].
        assert (He : e ∈ e :: groups') by left.
        specialize (Hle e He). specialize (Hpos e He). lia.
      * exists before, d, g, after. done.
Qed.

End ShellClaims.

(** ** C5 and C2: the remotes of an analysis *)

Section RemoteClaims.
Context `{UrlParser}.

Lemma remoteStep_fold shell l acc :
  fold_left (remoteStep shell) l acc
  = acc ++ map toMfeInfo (List.filter (isRemoteGroup shell) l).
Proof.
  revert acc. induction l as [|[d g] l IH]; intros acc; cbn [fold_left].
  - by rewrite app_nil_r.
  - rewrite IH. unfold remoteStep, isRemoteGroup. cbn [List.filter fst snd].
    destruct (String.eqb d shell); cbn [negb andb]; [done|].
    destruct (DomainGroup.hasRemoteEntry g || DomainGroup.hasWebpackSharing g);
      [|done].
    cbn [map]. by rewrite <- app_assoc.
Qed.

Lemma detectMfe_mfes snapshot :
  (detectMfe snapshot).(mfes)
  = map toMfeInfo
      (List.filter (isRemoteGroup (detectMfe snapshot).(shell))
         (groupScriptsByDomain snapshot.(PageSnapshot.scriptUrls))).
Proof. unfold detectMfe. cbn [mfes shell]. by rewrite remoteStep_fold. Qed.

(** C5.  The remotes of an analysis are the groups, in first-seen order,
    of the origins other than the shell that have a remote entry or a
    webpack sharing script.  No script listed under a remote is of the
    shell origin; every remote lists a script that is a module-federation
    indicator; and a grouped origin has its group listed exactly when it
    is not the shell and has one of the two flags. *)
Theorem detectMfe_remotes (snapshot : PageSnapshot.t) :
  let urls := snapshot.(PageSnapshot.scriptUrls) in
  let groups := groupScriptsByDomain urls in
  let analysis := detectMfe snapshot in
  analysis.(shell) = determineShell groups snapshot.(PageSnapshot.url) /\
  (forall m, m ∈ analysis.(mfes) ->
     m.(scripts) <> [] /\
     (forall u, u ∈ m.(scripts) -> u ∈ urls /\ getDomain u <> analysis.(shell)) /\
     (exists u, u ∈ m.(scripts) /\ isModuleFederationScript u = true)) /\
  (forall d g, (d, g) ∈ groups ->
     (d <> analysis.(shell) /\
      (g.(DomainGroup.hasRemoteEntry) = true \/
       g.(DomainGroup.hasWebpackSharing) = true))
     <->
     (exists m, m ∈ analysis.(mfes) /\ m.(name) = extractMfeName d /\
                m.(scripts) = g.(DomainGroup.scripts))).
Proof.
  cbv zeta. split; [done|].
  set (urls := snapshot.(PageSnapshot.scriptUrls)).
  assert (Hmem : forall m, m ∈ (detectMfe snapshot).(mfes) <->
            exists d, d ∈ origins urls /\
              isRemoteGroup (detectMfe snapshot).(shell) (d, groupOf urls d) = true /\
              m = toMfeInfo (d, groupOf urls d)).
  { intros m. rewrite detectMfe_mfes, list_elem_of_fmap. split.
    - intros ([d g] & -> & Hin). apply list_elem_of_In, List.filter_In in Hin.
      destruct Hin as [[Hd ->]%list_elem_of_In%elem_of_groups Hr]. by exists d.
    - intros (d & Hd & Hr & ->). exists (d, groupOf urls d). split; [done|].
      apply list_elem_of_In, List.filter_In. split; [|done].
      apply list_elem_of_In, elem_of_groups. done. }
  assert (Hsome : forall d, d ∈ origins urls -> exists u, u ∈ scriptsOf d urls).
  { intros d (u & -> & Hu)%elem_of_firstSeen%list_elem_of_fmap.
    exists u. by apply elem_of_scriptsOf. }
  split.
  - intros m (d & Hd & Hr & ->)%Hmem. cbn [toMfeInfo scripts snd fst groupOf
      DomainGroup.scripts].
    unfold isRemoteGroup in Hr. cbn [fst snd groupOf DomainGroup.hasRemoteEntry
      DomainGroup.hasWebpackSharing] in Hr.
    apply andb_true_iff in Hr as [Hne Hflag].
    apply negb_true_iff, String.eqb_neq in Hne.
    split; [|split].
    + destruct (Hsome d Hd) as [u Hu]. intros Hnil. rewrite Hnil in Hu.
      by apply elem_of_nil in Hu.
    + intros u [Hu <-]%elem_of_scriptsOf. done.
    + apply orb_true_iff in Hflag as [Hf|Hf];
        apply existsb_exists in Hf as (u & Hu%list_elem_of_In & Ht);
        exists u; (split; [done|]); unfold isModuleFederationScript;
        unfold isRemoteEntryUrl, isSharingUrl in Ht.
      * by rewrite Ht.
      * apply orb_true_iff in Ht as [-> | ->];
          rewrite ?orb_true_r; by destruct (Js.includes _ "remoteentry.js").
  - intros d g [Hd ->]%elem_of_groups. split.
    + intros [Hne Hflag]. exists (toMfeInfo (d, groupOf urls d)).
      split; [|done]. apply Hmem. exists d. split; [done|]. split; [|done].
      unfold isRemoteGroup. cbn [fst snd]. apply andb_true_iff. split.
      * by apply negb_true_iff, String.eqb_neq.
      * apply orb_true_iff. done.
    + intros (m & (d' & Hd' & Hr & ->)%Hmem & _ & Hs).
      cbn [toMfeInfo scripts snd groupOf DomainGroup.scripts] in Hs.
      assert (d' = d) as ->.
      { destruct (Hsome d' Hd') as [u Hu]. pose proof Hu as Hu'.
        rewrite Hs in Hu'. apply elem_of_scriptsOf in Hu as [_ <-].
        by apply elem_of_scriptsOf in Hu' as [_ <-]. }
      unfold isRemoteGroup in Hr. cbn [fst snd] in Hr.
      apply andb_true_iff in Hr as [Hne Hflag].
      apply negb_true_iff, String.eqb_neq in Hne.
      apply orb_true_iff in Hflag. done.
Qed.

End RemoteClaims.

(** C2.  On the scenario, with a URL parser that reads the four URLs
    involved as the platform does, detection returns the origin on port
    3000 as the shell and one remote, named mfe-3001 after its port, with
    the remote entry as its only script. *)
Theorem detectMfe_scenario `{UrlParser} :
  new_URL "http://localhost:3000/main.js" = Some (localhostUrl "3000") ->
  new_URL "http://localhost:3001/remoteEntry.js" = Some (localhostUrl "3001") ->
  new_URL "http://localhost:3000/" = Some (localhostUrl "3000") ->
  new_URL "http://localhost:3001" = Some (localhostUrl "3001") ->
  detectMfe scenario
  = {| shell := "http://localhost:3000";
       mfes := [ {| name := "mfe-3001";
                    scripts := ["http://localhost:3001/remoteEntry.js"] |} ] |}.
Proof.
  intros Hmain Hremote Hpage Horigin.
  assert (Dmain : getDomain "http://localhost:3000/main.js" = "http://localhost:3000")
    by (unfold getDomain; by rewrite Hmain).
  assert (Dremote : getDomain "http://localhost:3001/remoteEntry.js"
                    = "http://localhost:3001")
    by (unfold getDomain; by rewrite Hremote).
  assert (Dpage : getDomain "http://localhost:3000/" = "http://localhost:3000")
    by (unfold getDomain; by rewrite Hpage).
  assert (Nremote : extractMfeName "http://localhost:3001" = "mfe-3001")
    by (unfold extractMfeName; by rewrite Horigin).
  unfold detectMfe, scenario, groupScriptsByDomain, determineShell.
  cbn [PageSnapshot.scriptUrls PageSnapshot.url fold_left].
  unfold groupStep. rewrite Dmain, Dremote, Dpage.
  cbn -[extractMfeName]. by rewrite Nremote.
Qed.

Lemma detectMfe_scenario_witness :
  @detectMfe simpleUrlParser scenario
  = {| shell := "http://localhost:3000";
       mfes := [ {| name := "mfe-3001";
                    scripts := ["http://localhost:3001/remoteEntry.js"] |} ] |}.
Proof.
  apply (@detectMfe_scenario simpleUrlParser); reflexivity.
Defined.

(** The other scenario of the specification: every origin has a remote
    entry, so the shell is the origin with the most scripts, the earlier
    one on a tie; the page origin itself loaded no script. *)
Example all_remote_example :
  @detectMfe simpleUrlParser
    {| PageSnapshot.title := "";
       PageSnapshot.url := "http://a.com/";
       PageSnapshot.dom := "";
       PageSnapshot.scriptUrls :=
         ["http://x.com/remoteEntry.js";
          "http://y.com/1/remoteEntry.js"; "http://y.com/2.js";
          "http://z.com/REMOTEENTRY.JS"; "http://z.com/q.js"] |}
  = {| shell := "http://y.com";
       mfes := [ {| name := "x-com"; scripts := ["http://x.com/remoteEntry.js"] |};
                 {| name := "z-com";
                    scripts := ["http://z.com/REMOTEENTRY.JS";
                                "http://z.com/q.js"] |} ] |}.
Proof. reflexivity. Qed.

(** ** C6: roles *)

Lemma truthyOpt_false o : Js.truthyOpt o = false <-> o = None \/ o = Some "".
Proof.
  destruct o as [[|c s]|]; simpl; split; try done; try (by auto).
  intros [?|?]; done.
Qed.

Lemma truthyOpt_true o : Js.truthyOpt o = true <-> exists v, o = Some v /\ v <> "".
Proof.
  destruct o as [[|c s]|]; simpl; split; try done;
    try (by intros (v & ? & ?)); try (by intros (v & [= <-] & ?)).
  intros _. by eexists.
Qed.

Ltac eqb_literal H := rewrite ?H; cbn [String.eqb Ascii.eqb Bool.eqb orb andb].

Ltac eqb_false :=
  repeat match goal with
  | Hne : ?a <> ?b |- context [String.eqb ?a ?b] =>
      rewrite (proj2 (String.eqb_neq a b) Hne)
  end.

(** C6 (as amended).  A role attribute that is not empty is returned as
    it is.  Without one, the tag decides: button gives button, a gives
    link, input gives button, checkbox, radio or textbox by its type,
    select gives combobox, textarea gives textbox; any other tag gives
    button when it has an onclick or tabindex attribute and generic
    otherwise. *)
Theorem getRole_spec (e : Dom.Element) :
  let role := Dom.getAttribute e "role" in
  let tag := lowerTag e in
  let ty := e.(Dom.data).(Dom.type) in
  (forall v, role = Some v -> v <> "" -> getRole e = v) /\
  (role = None \/ role = Some "" ->
   (tag = "button" -> getRole e = "button") /\
   (tag = "a" -> getRole e = "link") /\
   (tag = "input" ->
    (ty = "button" \/ ty = "submit" \/ ty = "reset" -> getRole e = "button") /\
    (ty = "checkbox" -> getRole e = "checkbox") /\
    (ty = "radio" -> getRole e = "radio") /\
    (ty <> "button" -> ty <> "submit" -> ty <> "reset" ->
     ty <> "checkbox" -> ty <> "radio" -> getRole e = "textbox")) /\
   (tag = "select" -> getRole e = "combobox") /\
   (tag = "textarea" -> getRole e = "textbox") /\
   (tag <> "button" -> tag <> "a" -> tag <> "input" ->
    tag <> "select" -> tag <> "textarea" ->
    (Dom.hasAttribute e "onclick" = true \/
     Dom.hasAttribute e "tabindex" = true -> getRole e = "button") /\
    (Dom.hasAttribute e "onclick" = false ->
     Dom.hasAttribute e "tabindex" = false -> getRole e = "generic"))).
Proof.
  cbv zeta. unfold getRole. split.
  - intros v Hv Hne. rewrite Hv. destruct v; done.
  - intros Hrole%truthyOpt_false. rewrite Hrole.
    repeat apply conj; try (intros Ht; by eqb_literal Ht).
    + intros Ht. eqb_literal Ht. repeat apply conj.
      * by intros [->| [->| ->]].
      * by intros ->.
      * by intros ->.
      * intros. destruct (Dom.type (Dom.data e)) as [|c s] eqn:Hty; [done|].
        cbn [Js.truthy]. by eqb_false.
    + intros. eqb_false. split.
      * by intros [-> | ->]; rewrite ?orb_true_r.
      * by intros -> ->.
Qed.

(** C6 as stated fails: a role attribute that is present but empty is not
    returned; the tag decides instead. *)
Lemma getRole_empty_attribute :
  ~ (forall e v, Dom.getAttribute e "role" = Some v -> getRole e = v).
Proof.
  intros Hclaim. specialize (Hclaim emptyRoleButton "" eq_refl). discriminate.
Qed.

(** ** C7: accessible names *)

Lemma nonBlank_trim o : nonBlank o = Js.truthy (Js.trim (Js.orEmpty o)).
Proof. by destruct o as [[|c s]|]. Qed.

Lemma truthy_trim s : Js.truthy s && Js.truthy (Js.trim s) = Js.truthy (Js.trim s).
Proof. by destruct s. Qed.

Lemma truthy_length s : Js.truthy s && (0 <? String.length s) = Js.truthy s.
Proof. by destruct s. Qed.

Lemma toLowerCase_nonempty s : s <> "" -> Js.toLowerCase s <> "".
Proof. by destruct s. Qed.

Lemma firstNonEmpty_nonempty l fallback :
  fallback <> "" -> firstNonEmpty l fallback <> "".
Proof.
  intros Hf. induction l as [|c l IH]; simpl; [done|].
  destruct c; simpl; done.
Qed.

Lemma getAccessibleName_candidates e :
  getAccessibleName e = firstNonEmpty (nameCandidates e) (lowerTag e).
Proof.
  unfold getAccessibleName, nameCandidates, isTag, imageAlt.
  cbn [firstNonEmpty existsb]. rewrite !nonBlank_trim, !orb_false_r.
  rewrite truthy_length.
  rewrite <- (andb_assoc _ (Js.truthy (Dom.value (Dom.data e)))), truthy_trim.
  destruct (Js.truthy (Js.trim (Js.orEmpty (Dom.getAttribute e "aria-label"))));
    [done|].
  destruct (String.eqb (lowerTag e) "a" || String.eqb (lowerTag e) "button");
    rewrite ?andb_true_r, ?andb_false_r;
    [destruct (Js.truthy (Js.trim (Dom.textContent e))); [done|] |];
    cbn [Js.truthy];
    (destruct (String.eqb (lowerTag e) "input" || String.eqb (lowerTag e) "textarea");
     cbn [andb Js.truthy];
     [destruct (Js.truthy (Js.trim (Js.orEmpty (Dom.getAttribute e "placeholder"))));
      [done|] |]);
    (destruct (Js.truthy (Js.trim (Js.orEmpty (Dom.getAttribute e "title"))));
     [done|]);
    (destruct (String.eqb (lowerTag e) "input"); cbn [andb Js.truthy];
     [destruct (Js.truthy (Js.trim (Dom.value (Dom.data e)))); [done|] |]);
    done.
Qed.

(** C7.  The accessible name is the first candidate that is not empty
    once trimmed, in the order: the aria-label attribute; the text
    content, for a and button only; the placeholder, for input and
    textarea only; the title; the value, for input only; the alt text of
    the first image inside; the fallback is the tag name in lower case, so
    the name of an element (whose tag name is never empty) is never empty.
    With label Submit and text Go the name is Submit; for a button or link
    with the text Go alone it is Go. *)
Theorem getAccessibleName_spec (e : Dom.Element) :
  getAccessibleName e = firstNonEmpty (nameCandidates e) (lowerTag e) /\
  (e.(Dom.data).(Dom.tagName) <> "" -> getAccessibleName e <> "") /\
  (Dom.getAttribute e "aria-label" = Some "Submit" -> Dom.textContent e = "Go" ->
   getAccessibleName e = "Submit") /\
  (Dom.getAttribute e "aria-label" = None -> isTag e ["a"; "button"] = true ->
   Dom.textContent e = "Go" -> getAccessibleName e = "Go").
Proof.
  rewrite getAccessibleName_candidates. repeat apply conj.
  - done.
  - intros Htag. by apply firstNonEmpty_nonempty, toLowerCase_nonempty.
  - intros Hlabel _. unfold nameCandidates. by rewrite Hlabel.
  - intros Hlabel Htag Htext. unfold nameCandidates.
    by rewrite Hlabel, Htag, Htext.
Qed.

Lemma getAccessibleName_spec_witness :
  getAccessibleName (buttonElement [("aria-label", "Submit")] "Go") = "Submit" /\
  getAccessibleName (buttonElement [] "Go") = "Go" /\
  getAccessibleName (buttonElement [] "  ") = "button".
Proof.
  split; [|split].
  - by apply (getAccessibleName_spec (buttonElement [("aria-label", "Submit")] "Go")).
  - by apply (getAccessibleName_spec (buttonElement [] "Go")).
  - by rewrite (proj1 (getAccessibleName_spec (buttonElement [] "  "))).
Defined.

(** ** C8: selectors *)

Lemma append_assoc (a b c : string) : (a +:+ b) +:+ c = a +:+ (b +:+ c).
Proof.
  induction a as [|x a IH]; [done|].
  change (String x ((a +:+ b) +:+ c) = String x (a +:+ b +:+ c)). by f_equal.
Qed.

(** C8 (as amended).  An id that is not empty gives the role and id
    selector; failing that, a name that is not empty on an input or select
    gives the role and name selector; failing that, a label that is not
    blank gives the role and label selector, every double quote of the
    label preceded by a backslash; otherwise the selector is the tag name
    followed by the role. *)
Theorem generateSelector_spec (e : Dom.Element) (role : string) :
  (forall id, Dom.getAttribute e "id" = Some id -> id <> "" ->
     generateSelector e role = idSelector role id) /\
  (filled e "id" = false ->
   forall n, Dom.getAttribute e "name" = Some n -> n <> "" ->
     isTag e ["input"; "select"] = true ->
     generateSelector e role = nameSelector role n) /\
  (filled e "id" = false ->
   filled e "name" && isTag e ["input"; "select"] = false ->
   forall label, Dom.getAttribute e "aria-label" = Some label ->
     Js.trim label <> "" ->
     generateSelector e role = labelSelector role label) /\
  (filled e "id" = false ->
   filled e "name" && isTag e ["input"; "select"] = false ->
   Js.trim (Js.orEmpty (Dom.getAttribute e "aria-label")) = "" ->
   generateSelector e role = tagSelector e role) /\
  Js.escapeQuotes ("say " +:+ dq +:+ "hi" +:+ dq) = "say \" +:+ dq +:+ "hi\" +:+ dq.
Proof.
  unfold generateSelector, filled, isTag, idSelector, nameSelector,
    labelSelector, tagSelector, roleSelector.
  cbn [existsb]. rewrite orb_false_r, nonBlank_trim.
  repeat apply conj.
  - intros id -> Hid. destruct id; [done|]. cbn [Js.truthyOpt Js.truthy Js.orEmpty].
    by rewrite !append_assoc.
  - intros -> n -> Hn ->. destruct n; [done|].
    cbn [Js.truthyOpt Js.truthy Js.orEmpty andb]. by rewrite !append_assoc.
  - intros -> -> label -> Hl%truthy_true. cbn [Js.orEmpty]. rewrite Hl.
    by rewrite !append_assoc.
  - intros -> -> ->. cbn [Js.truthy]. by destruct (_ && _).
  - reflexivity.
Qed.

(** C8 as stated fails on attributes that are present but empty or blank:
    an empty id, an empty name and a label of one space are each passed
    over, and the selector is the tag name followed by the role. *)
Lemma generateSelector_empty_attributes :
  ~ (forall e role id, Dom.getAttribute e "id" = Some id ->
       generateSelector e role = idSelector role id) /\
  ~ (forall e role n, Dom.getAttribute e "id" = None ->
       Dom.getAttribute e "name" = Some n -> isTag e ["input"; "select"] = true ->
       generateSelector e role = nameSelector role n) /\
  ~ (forall e role label, Dom.getAttribute e "id" = None ->
       Dom.getAttribute e "name" = None ->
       Dom.getAttribute e "aria-label" = Some label -> label <> "" ->
       generateSelector e role = labelSelector role label).
Proof.
  repeat apply conj; intros Hclaim.
  - specialize (Hclaim (plainElement "DIV" [("id", "")]) "generic" "" eq_refl).
    discriminate.
  - specialize (Hclaim (plainElement "INPUT" [("name", "")]) "textbox" ""
                  eq_refl eq_refl eq_refl).
    discriminate.
  - assert (Hne : " " <> "") by done.
    specialize (Hclaim (plainElement "DIV" [("aria-label", " ")]) "generic" " "
                  eq_refl eq_refl eq_refl Hne).
    discriminate.
Qed.

(** ** C4: ownership *)

Lemma orEmpty_truthy o :
  (if Js.truthyOpt o then Js.orEmpty o else "") = Js.orEmpty o.
Proof. by destruct o as [[|c s]|]. Qed.

Lemma containerMatch_find blob l :
  containerMatch blob l = name <$> find (blobMatches blob) l.
Proof.
  induction l as [|m l IH]; cbn [containerMatch find]; [done|].
  unfold blobMatches at 1, hasMarker. rewrite <- !orb_assoc.
  rewrite IH. by destruct (_ || _).
Qed.

Lemma containerCheck_owner c a : containerCheck c a = ancestorOwner a c.
Proof.
  unfold containerCheck, ancestorOwner, filled, blobOf.
  by rewrite !orEmpty_truthy, containerMatch_find.
Qed.

Lemma containerLoop_walked doc a p :
  containerLoop doc a p = firstSome (ancestorOwner a) (walked doc p).
Proof.
  induction p as [|i p IH]; cbn [containerLoop walked];
    destruct (Dom.elementAt doc _) as [c|]; try done;
    destruct (Dom.isBody doc c); try done;
    cbn [firstSome]; rewrite containerCheck_owner;
    destruct (ancestorOwner a c); done.
Qed.

Lemma elementAt_path doc p c : Dom.elementAt doc p = Some c -> c.(Dom.path) = p.
Proof.
  unfold Dom.elementAt. destruct (Dom.nodeAt _ _) as [[|d cs]|]; try done.
  by intros [= <-].
Qed.

Lemma walked_ancestors doc p c :
  c ∈ walked doc p ->
  Dom.isBody doc c = false /\ Dom.elementAt doc c.(Dom.path) = Some c /\
  exists k, c.(Dom.path) = drop k p.
Proof.
  induction p as [|i p IH]; cbn [walked].
  - destruct (Dom.elementAt doc []) as [x|] eqn:Hx; [|by intros ?%elem_of_nil].
    destruct (Dom.isBody doc x) eqn:Hb; [by intros ?%elem_of_nil|].
    pose proof (elementAt_path _ _ _ Hx) as Hp.
    intros [->|Hc]%elem_of_cons; [|by apply elem_of_nil in Hc].
    rewrite Hp. split; [done|]. split; [done|]. by exists 0.
  - destruct (Dom.elementAt doc (i :: p)) as [x|] eqn:Hx;
      [|by intros ?%elem_of_nil].
    destruct (Dom.isBody doc x) eqn:Hb; [by intros ?%elem_of_nil|].
    pose proof (elementAt_path _ _ _ Hx) as Hp.
    intros [->|Hc]%elem_of_cons.
    + rewrite Hp. split; [done|]. split; [done|]. by exists 0.
    + destruct (IH Hc) as (? & ? & k & ?). split; [done|]. split; [done|].
      by exists (S k).
Qed.

Lemma firstSome_none {A B} (f : A -> option B) (l : list A) :
  (forall x, x ∈ l -> f x = None) -> firstSome f l = None.
Proof.
  induction l as [|c l IH]; cbn [firstSome]; [done|]. intros Hnone.
  rewrite Hnone by left. apply IH. intros x Hx. apply Hnone. by right.
Qed.

(** The source and the three steps agree. *)
Lemma inferMfeOwner_steps e a doc : inferMfeOwner e a doc = ownerBySteps e a doc.
Proof.
  unfold inferMfeOwner, ownerBySteps, ancestorsOf. fold (hintOf e).
  assert (Hwalk : match Dom.path e with
                  | [] => None
                  | _ :: parent => containerLoop doc a parent
                  end = firstSome (ancestorOwner a)
                          match Dom.path e with
                          | [] => []
                          | _ :: parent => walked doc parent
                          end).
  { destruct (Dom.path e) as [|i p]; [done|]. apply containerLoop_walked. }
  rewrite Hwalk. by destruct (hintOf e) as [[|c s]|].
Qed.

Lemma ownerBySteps_unhinted e a doc :
  hintOf e = None \/ hintOf e = Some "" \/
  (exists hint, hintOf e = Some hint /\ find (hintMatches hint) a.(mfes) = None) ->
  ownerBySteps e a doc = firstSome (ancestorOwner a) (ancestorsOf doc e).
Proof.
  unfold ownerBySteps. intros [-> | [-> | (hint & -> & Hf)]]; try done.
  rewrite Hf. by destruct (Js.truthy hint).
Qed.

(** C4 (as amended).  Ownership goes by three steps.  (1) The hint is the
    first of data-mfe, data-microfrontend and data-remote whose value is
    not empty; the first MFE, in the order of the analysis, whose name
    contains the hint or is contained in it, both in lower case, owns the
    element.  (2) Failing that, the ancestors are walked from the parent
    upward, ending before the body; at each one whose id or class is not
    empty, the first MFE whose name in lower case occurs in the lower-cased
    text of id, a space and class, or any MFE at all when that text holds
    one of the markers mfe, remote, microfrontend, owns the element.
    (3) Failing that, there is no owner. *)
Theorem inferMfeOwner_spec (e : Dom.Element) (a : MfeAnalysis) (doc : Dom.Document) :
  let unhinted :=
    hintOf e = None \/ hintOf e = Some "" \/
    exists hint, hintOf e = Some hint /\ find (hintMatches hint) a.(mfes) = None in
  inferMfeOwner e a doc = ownerBySteps e a doc /\
  (forall hint mfe, hintOf e = Some hint -> hint <> "" ->
     find (hintMatches hint) a.(mfes) = Some mfe ->
     inferMfeOwner e a doc = Some mfe.(name)) /\
  (unhinted ->
   inferMfeOwner e a doc = firstSome (ancestorOwner a) (ancestorsOf doc e)) /\
  (forall c, c ∈ ancestorsOf doc e ->
     Dom.isBody doc c = false /\ Dom.elementAt doc c.(Dom.path) = Some c /\
     exists k, c.(Dom.path) = drop (S k) e.(Dom.path)) /\
  (unhinted -> (forall c, c ∈ ancestorsOf doc e -> ancestorOwner a c = None) ->
   inferMfeOwner e a doc = None).
Proof.
  cbv zeta. pose proof (ownerBySteps_unhinted e a doc) as Hun.
  rewrite inferMfeOwner_steps.
  repeat apply conj.
  - done.
  - intros hint mfe Hh Hne Hf. unfold ownerBySteps. rewrite Hh, Hf.
    by destruct hint.
  - exact Hun.
  - unfold ancestorsOf. intros c Hc. destruct (Dom.path e) as [|i p].
    + by apply elem_of_nil in Hc.
    + apply walked_ancestors in Hc as (? & ? & k & ?). eauto.
  - intros Hu Hnone. rewrite (Hun Hu). by apply firstSome_none.
Qed.

(** C4 as stated fails in three places: a hint attribute that is present
    but empty is contained in every name yet selects no owner; an
    ancestor whose id is present but empty is not looked at; and the name
    is looked for in lower case, so a name with a capital is found in a
    text that does not contain it as written. *)
Lemma inferMfeOwner_as_stated_fails :
  ~ (forall e a doc hint mfe, firstHintPresent e = Some hint ->
       find (hintMatches hint) a.(mfes) = Some mfe ->
       inferMfeOwner e a doc = Some mfe.(name)) /\
  ~ (forall e a doc c rest mfe, firstHintPresent e = None ->
       ancestorsOf doc e = c :: rest ->
       is_Some (Dom.getAttribute c "id") \/ is_Some (Dom.getAttribute c "class") ->
       find (blobMatches (blobOf c)) a.(mfes) = Some mfe ->
       inferMfeOwner e a doc = Some mfe.(name)) /\
  ~ (forall e a doc, firstHintPresent e = None ->
       (forall c mfe, c ∈ ancestorsOf doc e -> mfe ∈ a.(mfes) ->
          Js.includes (blobOf c) mfe.(name) = false /\
          hasMarker (blobOf c) = false) ->
       inferMfeOwner e a doc = None).
Proof.
  repeat apply conj; intros Hclaim.
  - pose (d := bare "BUTTON" [("data-mfe", "")]).
    specialize (Hclaim (elementOf [0; 1] d []) (analysisOf ["cart"])
                  (page [Dom.Elem d []]) "" {| name := "cart"; scripts := [] |}
                  eq_refl eq_refl).
    discriminate.
  - pose (d := bare "BUTTON" []). pose (box := bare "DIV" [("id", "")]).
    specialize (Hclaim (elementOf [0; 0; 1] d []) (analysisOf [""])
                  (page [Dom.Elem box [Dom.Elem d []]])
                  (elementOf [0; 1] box [Dom.Elem d []]) []
                  {| name := ""; scripts := [] |} eq_refl eq_refl).
    discriminate Hclaim; [left; by eexists | done].
  - pose (d := bare "BUTTON" []). pose (box := bare "DIV" [("id", "cart")]).
    specialize (Hclaim (elementOf [0; 0; 1] d []) (analysisOf ["Cart"])
                  (page [Dom.Elem box [Dom.Elem d []]]) eq_refl).
    discriminate Hclaim.
    intros c mfe Hc Hm. vm_compute in Hc, Hm.
    apply list_elem_of_singleton in Hc as ->.
    apply list_elem_of_singleton in Hm as ->. done.
Qed.

(** ** C3: the interaction map *)

Section ObjectFacts.
Context {V : Type}.
Implicit Types (o : JsObject.t V) (k j : string) (v : V).

Lemma get_set_eq k v o : JsObject.get k (JsObject.set k v o) = Some v.
Proof.
  unfold JsObject.get, JsObject.set.
  destruct (String.eqb k JsObject.protoKey); cbn; [done|]. apply lookup_insert_eq.
Qed.

Lemma get_set_ne j k v o :
  j <> k -> JsObject.get j (JsObject.set k v o) = JsObject.get j o.
Proof.
  intros Hne. unfold JsObject.get, JsObject.set.
  destruct (String.eqb j JsObject.protoKey) eqn:Hj,
           (String.eqb k JsObject.protoKey) eqn:Hk; cbn; try done.
  - apply String.eqb_eq in Hj, Hk. congruence.
  - by apply lookup_insert_ne.
Qed.

Lemma get_set_is_Some j k v v' o :
  JsObject.get k o = Some v ->
  is_Some (JsObject.get j (JsObject.set k v' o)) <-> is_Some (JsObject.get j o).
Proof.
  intros Hk. destruct (decide (j = k)) as [->|Hne].
  - rewrite get_set_eq, Hk. split; by eexists.
  - by rewrite get_set_ne.
Qed.

Lemma get_empty k : JsObject.get k (JsObject.empty : JsObject.t V) = None.
Proof. unfold JsObject.get. by destruct (String.eqb _ _). Qed.

Lemma get_protoKey o : JsObject.get JsObject.protoKey o = o.(JsObject.proto).
Proof. unfold JsObject.get. by rewrite String.eqb_refl. Qed.

(** [__proto__] never becomes an own key. *)
Lemma set_own_protoKey k v o :
  o.(JsObject.own) !! JsObject.protoKey = None ->
  (JsObject.set k v o).(JsObject.own) !! JsObject.protoKey = None.
Proof.
  intros Ho. unfold JsObject.set.
  destruct (String.eqb k JsObject.protoKey) eqn:Hk; cbn; [done|].
  apply String.eqb_neq in Hk. by rewrite lookup_insert_ne.
Qed.

Lemma own_get o k :
  o.(JsObject.own) !! JsObject.protoKey = None ->
  o.(JsObject.own) !! k
  = if decide (k = JsObject.protoKey) then None else JsObject.get k o.
Proof.
  intros Ho. unfold JsObject.get. destruct (decide _) as [->|Hne]; [done|].
  apply String.eqb_neq in Hne. by rewrite Hne.
Qed.

End ObjectFacts.

Section Grouping.
Local Abbreviation element := InteractiveElement.t.
Implicit Types (buckets : JsObject.t (list element)) (shell : list element).

Lemma bucketed_insert (m : gmap string (list element)) k v x :
  m !! k = Some v ->
  bucketed (<[k := v ++ [x]]> m) ≡ₚ x :: bucketed m.
Proof.
  intros Hk. unfold bucketed.
  rewrite <- (insert_delete_eq m).
  rewrite map_to_list_insert by apply lookup_delete_eq.
  rewrite <- (map_to_list_delete m k v Hk).
  cbn [fmap list_fmap snd]. csimpl.
  rewrite <- app_assoc. cbn [app].
  by rewrite <- Permutation_middle, (Permutation_app_comm v).
Qed.

(** A push adds the record to those the object holds, wherever the array
    hangs. *)
Lemma held_set buckets k v x :
  JsObject.get k buckets = Some v ->
  held (JsObject.set k (v ++ [x]) buckets) ≡ₚ x :: held buckets.
Proof.
  unfold JsObject.get, JsObject.set, held.
  destruct (String.eqb k JsObject.protoKey); cbn [JsObject.own JsObject.proto].
  - intros ->. change (default [] (Some (v ++ [x]))) with (v ++ [x]).
    change (default [] (Some v)) with v.
    rewrite (app_assoc _ v [x]). symmetry. apply Permutation_cons_append.
  - intros Hk. by rewrite (bucketed_insert _ _ _ _ Hk).
Qed.

Lemma placeElement_cases shell buckets x :
  match bucketOf buckets x with
  | Some k =>
      exists v, JsObject.get k buckets = Some v /\
        placeElement (shell, buckets) x
        = (shell, JsObject.set k (v ++ [x]) buckets)
  | None => placeElement (shell, buckets) x = (shell ++ [x], buckets)
  end.
Proof.
  unfold bucketOf, placeElement.
  destruct (InteractiveElement.mfeOwner x) as [[|c s]|]; cbn [Js.truthyOpt
    Js.truthy Js.orEmpty andb]; try done.
  destruct (JsObject.get (String c s) buckets) as [v|] eqn:Hv.
  - rewrite bool_decide_eq_true_2 by done. by exists v.
  - rewrite bool_decide_eq_false_2; [done|]. by intros [? ?].
Qed.

Lemma bucketOf_ext buckets buckets' x :
  (forall k, is_Some (JsObject.get k buckets') <-> is_Some (JsObject.get k buckets)) ->
  bucketOf buckets' x = bucketOf buckets x.
Proof.
  intros Hdom. unfold bucketOf.
  destruct (InteractiveElement.mfeOwner x) as [o|]; [|done].
  by rewrite (bool_decide_ext _ _ (Hdom o)).
Qed.

(** The placing loop: what it leaves in the shell list and in each array
    of the object, that [__proto__] stays out of the own keys, and that no
    record is lost or repeated as long as the prototype array is counted. *)
Lemma placeElement_fold l shell buckets :
  exists buckets',
    fold_left placeElement l (shell, buckets)
    = (shell ++ List.filter (fun x => bool_decide (bucketOf buckets x = None)) l,
       buckets') /\
    (forall k, JsObject.get k buckets'
               = (fun v => v ++ List.filter
                             (fun x => bool_decide (bucketOf buckets x = Some k)) l)
                 <$> JsObject.get k buckets) /\
    (buckets.(JsObject.own) !! JsObject.protoKey = None ->
     buckets'.(JsObject.own) !! JsObject.protoKey = None) /\
    shell ++ List.filter (fun x => bool_decide (bucketOf buckets x = None)) l
      ++ held buckets'
    ≡ₚ shell ++ held buckets ++ l.
Proof.
  revert shell buckets. induction l as [|x l IH]; intros shell buckets.
  - exists buckets. cbn [fold_left List.filter]. rewrite !app_nil_r.
    split; [done|]. split; [|done]. intros k.
    destruct (JsObject.get k buckets); cbn; by rewrite ?app_nil_r.
  - cbn [fold_left List.filter].
    pose proof (placeElement_cases shell buckets x) as Hx.
    destruct (bucketOf buckets x) as [k|] eqn:Hb.
    + destruct Hx as (v & Hv & ->).
      set (pushed := JsObject.set k (v ++ [x]) buckets).
      assert (Hdom : forall j, is_Some (JsObject.get j pushed)
                               <-> is_Some (JsObject.get j buckets)).
      { intros j. by apply (get_set_is_Some j k v). }
      destruct (IH shell pushed) as (b' & -> & Hlook & Hown & Hperm).
      exists b'. rewrite bool_decide_eq_false_2 by done.
      split; [|split; [|split]].
      * f_equal. f_equal. apply filter_ext. intros y.
        by rewrite (bucketOf_ext _ _ _ Hdom).
      * intros j. rewrite Hlook.
        assert (Hf : forall y, bool_decide (bucketOf pushed y = Some j)
                               = bool_decide (bucketOf buckets y = Some j)).
        { intros y. by rewrite (bucketOf_ext _ _ _ Hdom). }
        rewrite (filter_ext _ _ Hf).
        destruct (decide (k = j)) as [<-|Hne].
        -- unfold pushed. rewrite get_set_eq, Hv. cbn.
           rewrite bool_decide_eq_true_2 by done. by rewrite <- app_assoc.
        -- unfold pushed. rewrite get_set_ne by done.
           rewrite bool_decide_eq_false_2 by congruence. done.
      * intros Ho. apply Hown. by apply set_own_protoKey.
      * assert (Hf : forall y, bool_decide (bucketOf pushed y = None)
                               = bool_decide (bucketOf buckets y = None)).
        { intros y. by rewrite (bucketOf_ext _ _ _ Hdom). }
        rewrite (filter_ext _ _ Hf) in Hperm. rewrite Hperm.
        unfold pushed. rewrite (held_set _ _ _ _ Hv).
        apply Permutation_app_head. cbn [app].
        by rewrite <- Permutation_middle.
    + rewrite Hx.
      destruct (IH (shell ++ [x]) buckets) as (b' & -> & Hlook & Hown & Hperm).
      exists b'. rewrite bool_decide_eq_true_2 by done.
      split; [|split; [|split]].
      * by rewrite <- app_assoc.
      * intros j. rewrite Hlook. destruct (JsObject.get j buckets); [|done]. cbn.
        rewrite bool_decide_eq_false_2 by congruence. done.
      * done.
      * cbn [app]. rewrite <- app_assoc in Hperm. cbn [app] in Hperm.
        rewrite Hperm. rewrite <- app_assoc. apply Permutation_app_head.
        cbn [app]. by rewrite <- Permutation_middle.
Qed.

Lemma initBucket_fold (l : list MfeInfo) buckets k :
  JsObject.get k (fold_left initBucket l buckets)
  = if decide (k ∈ map name l) then Some [] else JsObject.get k buckets.
Proof.
  revert buckets. induction l as [|m l IH]; intros buckets; cbn [fold_left map].
  - destruct (decide (k ∈ [])) as [Hin|]; [|done]. by apply elem_of_nil in Hin.
  - rewrite IH. unfold initBucket.
    destruct (decide (k ∈ map name l)) as [Hin|Hin],
      (decide (k ∈ name m :: map name l)) as [Hin'|Hin']; try done.
    + destruct Hin'. by right.
    + apply elem_of_cons in Hin' as [->|?]; [|done]. by rewrite get_set_eq.
    + rewrite get_set_ne; [done|]. intros ->. apply Hin'. left.
Qed.

Lemma initBucket_own_protoKey (l : list MfeInfo) buckets :
  buckets.(JsObject.own) !! JsObject.protoKey = None ->
  (fold_left initBucket l buckets).(JsObject.own) !! JsObject.protoKey = None.
Proof.
  revert buckets. induction l as [|m l IH]; intros buckets Ho; [done|].
  cbn [fold_left]. apply IH. by apply set_own_protoKey.
Qed.

Lemma bucketed_empty_lists (m : gmap string (list element)) :
  (forall k v, m !! k = Some v -> v = []) -> bucketed m = [].
Proof.
  intros Hall. unfold bucketed.
  assert (Hl : forall e, e ∈ map_to_list m -> e.2 = []).
  { intros [k v] Hkv%elem_of_map_to_list. by apply (Hall k). }
  induction (map_to_list m) as [|[k v] l IH]; [done|]. csimpl.
  assert (v = []) as -> by (apply (Hl (k, v)); left).
  cbn [app]. apply IH. intros e He. apply Hl. by right.
Qed.

Lemma held_empty_lists buckets :
  buckets.(JsObject.own) !! JsObject.protoKey = None ->
  (forall k v, JsObject.get k buckets = Some v -> v = []) -> held buckets = [].
Proof.
  intros Ho Hall. unfold held. rewrite bucketed_empty_lists.
  - cbn [app]. rewrite <- get_protoKey.
    destruct (JsObject.get _ buckets) as [v|] eqn:Hv; [|done].
    by apply Hall in Hv as ->.
  - intros k v. rewrite (own_get _ _ Ho). destruct (decide _); [done|]. apply Hall.
Qed.

End Grouping.

(** What the grouping leaves where.  The own keys of the object are the
    names of the analysis other than [__proto__]; an MFE of that name has
    its array put in the place of the prototype, and the records it owns
    end up there. *)
Lemma groupElements_spec (a : MfeAnalysis) (extracted : list InteractiveElement.t) :
  let names := map name a.(mfes) in
  let result := groupElements a extracted in
  result.(InteractionMap.shell)
  = List.filter (fun x => bool_decide (ownerBucket names x = None)) extracted /\
  (forall k, result.(InteractionMap.mfes).(JsObject.own) !! k
             = if decide (k ∈ names /\ k <> JsObject.protoKey)
               then Some (List.filter
                            (fun x => bool_decide (ownerBucket names x = Some k))
                            extracted)
               else None) /\
  result.(InteractionMap.mfes).(JsObject.proto)
  = (if decide (JsObject.protoKey ∈ names)
     then Some (List.filter
                  (fun x => bool_decide (ownerBucket names x = Some JsObject.protoKey))
                  extracted)
     else None) /\
  result.(InteractionMap.shell) ++ held result.(InteractionMap.mfes)
  ≡ₚ extracted.
Proof.
  cbv zeta. unfold groupElements.
  set (empty := fold_left initBucket (mfes a) JsObject.empty).
  assert (Hempty : forall k, JsObject.get k empty
                     = if decide (k ∈ map name (mfes a)) then Some [] else None).
  { intros k. unfold empty. by rewrite initBucket_fold, get_empty. }
  assert (Hown : empty.(JsObject.own) !! JsObject.protoKey = None).
  { by apply initBucket_own_protoKey. }
  assert (Hsame : forall x, bucketOf empty x = ownerBucket (map name (mfes a)) x).
  { intros x. unfold bucketOf, ownerBucket.
    destruct (InteractiveElement.mfeOwner x) as [o|]; [|done].
    assert (Hk : bool_decide (is_Some (JsObject.get o empty))
                 = bool_decide (o ∈ map name (mfes a))).
    { apply bool_decide_ext. rewrite Hempty.
      destruct (decide (o ∈ map name (mfes a))); split; try done;
        try (by intros [? ?]). }
    by rewrite Hk. }
  destruct (placeElement_fold extracted [] empty)
    as (b' & -> & Hlook & Hown' & Hperm).
  specialize (Hown' Hown).
  cbn [InteractionMap.shell InteractionMap.mfes app] in *.
  assert (Hget : forall k, JsObject.get k b'
                   = if decide (k ∈ map name (mfes a))
                     then Some (List.filter
                                  (fun x => bool_decide
                                     (ownerBucket (map name (mfes a)) x = Some k))
                                  extracted)
                     else None).
  { intros k. rewrite Hlook, Hempty.
    destruct (decide (k ∈ map name (mfes a))); [|done]. cbn. f_equal.
    apply filter_ext. intros x. by rewrite Hsame. }
  split; [|split; [|split]].
  - apply filter_ext. intros x. by rewrite Hsame.
  - intros k. rewrite (own_get _ _ Hown'), Hget.
    destruct (decide (k = JsObject.protoKey)) as [->|Hne].
    + rewrite decide_False; [done|]. by intros [_ ?].
    + destruct (decide (k ∈ map name (mfes a))).
      * by rewrite decide_True.
      * rewrite decide_False; [done|]. by intros [? _].
  - by rewrite <- get_protoKey, Hget.
  - rewrite Hperm, held_empty_lists; [done|done|].
    intros k v. rewrite Hempty. destruct (decide _); congruence.
Qed.

(** ** The document tree: positions identify elements *)

Section NodeInduction.
Variable P : Dom.Node -> Prop.
Hypothesis Htext : forall s, P (Dom.Text s).
Hypothesis Helem : forall d cs, Forall P cs -> P (Dom.Elem d cs).

Fixpoint Node_forall_ind (n : Dom.Node) : P n :=
  match n with
  | Dom.Text s => Htext s
  | Dom.Elem d cs =>
      Helem d cs
        ((fix go (cs : list Dom.Node) : Forall P cs :=
            match cs with
            | [] => @List.Forall_nil _ P
            | c :: r => @List.Forall_cons _ P c r (Node_forall_ind c) (go r)
            end) cs)
  end.
End NodeInduction.

Lemma elementsOf_Elem p d cs :
  Dom.elementsOf p (Dom.Elem d cs)
  = {| Dom.path := p; Dom.data := d; Dom.childNodes := cs |}
    :: childElements p 0 cs.
Proof.
  cbn [Dom.elementsOf]. f_equal. generalize 0.
  induction cs as [|c cs IH]; intros i; cbn [childElements]; [done|].
  by rewrite <- IH.
Qed.

Lemma elem_of_childElements p i cs x :
  x ∈ childElements p i cs ->
  exists j c, nth_error cs j = Some c /\ x ∈ Dom.elementsOf ((i + j) :: p) c.
Proof.
  revert i. induction cs as [|c cs IH]; intros i; cbn [childElements].
  - by intros ?%elem_of_nil.
  - intros [Hx|Hx]%elem_of_app.
    + exists 0, c. split; [done|]. by rewrite Nat.add_0_r.
    + destruct (IH _ Hx) as (j & c' & Hj & Hin). exists (S j), c'.
      split; [done|]. by rewrite Nat.add_succ_r.
Qed.

(** An element found in a subtree sits at its own position there. *)
Lemma elementsOf_nodeAt n : forall p x,
  x ∈ Dom.elementsOf p n ->
  exists q, x.(Dom.path) = q ++ p /\
    Dom.nodeAt n (rev q) = Some (Dom.Elem x.(Dom.data) x.(Dom.childNodes)).
Proof.
  induction n as [s|d cs IH] using Node_forall_ind; intros p x.
  - by intros ?%elem_of_nil.
  - rewrite elementsOf_Elem. intros [->|Hx]%elem_of_cons.
    + by exists [].
    + apply elem_of_childElements in Hx as (j & c & Hj & Hx).
      rewrite Forall_forall in IH.
      assert (Hc : c ∈ cs) by (apply list_elem_of_In; by eapply nth_error_In).
      destruct (IH c Hc _ _ Hx) as (q & Hq & Hat).
      exists (q ++ [j]). split.
      * by rewrite Hq, <- app_assoc.
      * rewrite rev_app_distr. cbn [rev app Dom.nodeAt]. by rewrite Hj.
Qed.

Lemma elementsOf_elementAt doc x :
  x ∈ Dom.elementsOf [] doc.(Dom.documentElement) ->
  Dom.elementAt doc x.(Dom.path) = Some x.
Proof.
  intros (q & Hq & Hat)%elementsOf_nodeAt. rewrite app_nil_r in Hq.
  unfold Dom.elementAt. rewrite Hq, Hat. f_equal. destruct x. cbn in *.
  by rewrite Hq.
Qed.

Lemma elementsOf_same_path doc x y :
  x ∈ Dom.elementsOf [] doc.(Dom.documentElement) ->
  y ∈ Dom.elementsOf [] doc.(Dom.documentElement) ->
  x.(Dom.path) = y.(Dom.path) -> x = y.
Proof.
  intros Hx%elementsOf_elementAt Hy%elementsOf_elementAt Hp.
  rewrite Hp in Hx. congruence.
Qed.

Lemma elem_of_querySelectorAll doc sel x :
  x ∈ Dom.querySelectorAll doc sel
  <-> x ∈ Dom.elementsOf [] doc.(Dom.documentElement) /\ Dom.matches sel x = true.
Proof. unfold Dom.querySelectorAll. rewrite list_elem_of_filter. tauto. Qed.

(** ** The extraction passes *)

Section Passes.
Variables (doc : Dom.Document) (a : MfeAnalysis) (wanted : string -> bool).
Implicit Types (st : Extraction) (x : Dom.Element)
  (t : Dom.Element * InteractiveElement.t).

Lemma visit_processed st x q :
  q ∈ processedElements (visit doc a wanted st x)
  <-> q = x.(Dom.path) \/ q ∈ st.(processedElements).
Proof.
  unfold visit. case_bool_decide as Hin.
  - split; [by right|]. by intros [->|?].
  - destruct (wanted (getRole x)); cbn [processedElements];
      by rewrite elem_of_union, elem_of_singleton.
Qed.

Lemma visit_elements st x t :
  t ∈ elements (visit doc a wanted st x) ->
  t ∈ st.(elements) \/
  (t.1 = x /\ (Dom.path x ∉ processedElements st) /\
   wanted (getRole x) = true /\ tagged doc a t).
Proof.
  unfold visit. case_bool_decide as Hin; [by left|].
  destruct (wanted (getRole x)) eqn:Hw; cbn [elements]; [|by left].
  intros [Ht|Ht]%elem_of_app; [by left|].
  apply list_elem_of_singleton in Ht as ->. by right.
Qed.

Lemma pass_processed l st q :
  q ∈ processedElements (fold_left (visit doc a wanted) l st)
  <-> q ∈ st.(processedElements) \/ exists x, x ∈ l /\ q = x.(Dom.path).
Proof.
  revert st. induction l as [|y l IH]; intros st; cbn [fold_left].
  - split; [by left|]. intros [?|(x & ?%elem_of_nil & _)]; done.
  - rewrite IH, visit_processed. split.
    + intros [[->|?]|(x & Hx & ->)].
      * right. exists y. split; [left|done].
      * by left.
      * right. exists x. split; [by right|done].
    + intros [?|(x & [->|Hx]%elem_of_cons & ->)].
      * left. by right.
      * left. by left.
      * right. by exists x.
Qed.

Lemma pass_elements l st t :
  t ∈ elements (fold_left (visit doc a wanted) l st) ->
  t ∈ st.(elements) \/
  (t.1 ∈ l /\ (Dom.path t.1 ∉ processedElements st) /\
   wanted (getRole t.1) = true /\ tagged doc a t).
Proof.
  revert st. induction l as [|y l IH]; intros st; cbn [fold_left]; [by left|].
  intros [Ht|(Hl & Hp & Hw & Htag)]%IH.
  - apply visit_elements in Ht as [?|(<- & ? & ? & ?)]; [by left|].
    right. split; [left|done].
  - right. split; [by right|]. split; [|done].
    intros Hin. apply Hp, visit_processed. by right.
Qed.

End Passes.

(** An extracted record is the description of an element of the document
    that the first query matching it was looking for. *)
Lemma extractTagged_sound doc a t :
  t ∈ extractTagged doc a ->
  t.1 ∈ Dom.elementsOf [] doc.(Dom.documentElement) /\
  tagged doc a t /\
  ((Dom.matches buttonsQuery t.1 = true /\ isButtonRole (getRole t.1) = true) \/
   (Dom.matches buttonsQuery t.1 = false /\
    Dom.matches linksQuery t.1 = true /\ isLinkRole (getRole t.1) = true) \/
   (Dom.matches buttonsQuery t.1 = false /\ Dom.matches linksQuery t.1 = false /\
    Dom.matches inputsQuery t.1 = true /\ isInputRole (getRole t.1) = true)).
Proof.
  unfold extractTagged, runPass.
  set (st0 := {| elements := []; processedElements := ∅ |}).
  set (st1 := fold_left _ (Dom.querySelectorAll doc buttonsQuery) st0).
  set (st2 := fold_left _ (Dom.querySelectorAll doc linksQuery) st1).
  assert (Hunseen : forall sel l st x,
            x ∈ Dom.elementsOf [] doc.(Dom.documentElement) ->
            x.(Dom.path) ∉ processedElements
                             (fold_left (visit doc a l)
                                (Dom.querySelectorAll doc sel) st) ->
            Dom.matches sel x = false /\ x.(Dom.path) ∉ st.(processedElements)).
  { intros sel l st x Hx Hp. split.
    - destruct (Dom.matches sel x) eqn:Hm; [|done]. destruct Hp.
      apply pass_processed. right. exists x. split; [|done].
      by apply elem_of_querySelectorAll.
    - intros Hin. apply Hp, pass_processed. by left. }
  intros [[[Ht|(Hin & _ & Hw & Htag)]%pass_elements
          |(Hin & Hp & Hw & Htag)]%pass_elements
         |(Hin & Hp & Hw & Htag)]%pass_elements.
  - by apply elem_of_nil in Ht.
  - apply elem_of_querySelectorAll in Hin as [Hel Hm]. auto.
  - apply elem_of_querySelectorAll in Hin as [Hel Hm].
    destruct (Hunseen _ _ _ _ Hel Hp) as [Hb _]. auto 10.
  - apply elem_of_querySelectorAll in Hin as [Hel Hm].
    destruct (Hunseen _ _ _ _ Hel Hp) as [Hl Hp1].
    destruct (Hunseen _ _ _ _ Hel Hp1) as [Hb _]. auto 10.
Qed.

(** The owner inferred is always the name of an MFE of the analysis. *)
Lemma inferMfeOwner_known e a doc owner :
  inferMfeOwner e a doc = Some owner -> owner ∈ map name a.(mfes).
Proof.
  rewrite inferMfeOwner_steps. unfold ownerBySteps.
  assert (Hfind : forall P m, find P a.(mfes) = Some m ->
                              m.(name) ∈ map name a.(mfes)).
  { intros P m Hm%find_some. apply list_elem_of_fmap. exists m.
    split; [done|]. apply list_elem_of_In. tauto. }
  destruct (match hintOf e with
            | Some hint =>
                if Js.truthy hint then find (hintMatches hint) (mfes a) else None
            | None => None
            end) as [m|] eqn:Hhint.
  - intros [= <-]. destruct (hintOf e) as [hint|]; [|done].
    destruct (Js.truthy hint); [|done]. by eapply Hfind.
  - induction (ancestorsOf doc e) as [|c l IH]; cbn [firstSome]; [done|].
    destruct (ancestorOwner a c) as [o|] eqn:Hc; [|done].
    intros [= <-]. unfold ancestorOwner in Hc.
    destruct (_ || _); [|done].
    destruct (find _ _) as [m|] eqn:Hm; [|done].
    injection Hc as <-. by eapply Hfind.
Qed.

(** ** C3: conservation *)

Section MapClaims.
Context `{DomParser}.

(** C3 (as amended).  For an analysis in which no MFE is named
    [__proto__], every extracted record goes to exactly one place: the
    bucket of its owner when the owner is not empty and names a known MFE,
    the shell list otherwise (an inferred owner is always a known name).
    The shell list and the buckets together hold the extracted records,
    none dropped and none repeated, so the counts add up; and every name of
    the analysis is a key of the map, its bucket possibly empty. *)
Theorem mapInteractions_spec (snapshot : PageSnapshot.t) (a : MfeAnalysis) :
  let extracted :=
    extractInteractiveElements (JSDOM snapshot.(PageSnapshot.dom)) a in
  let names := map name a.(mfes) in
  let result := mapInteractions snapshot a in
  let buckets := result.(InteractionMap.mfes).(JsObject.own) in
  "__proto__" ∉ names ->
  result.(InteractionMap.shell)
  = List.filter (fun x => bool_decide (ownerBucket names x = None)) extracted /\
  (forall k, buckets !! k
             = if decide (k ∈ names)
               then Some (List.filter
                            (fun x => bool_decide (ownerBucket names x = Some k))
                            extracted)
               else None) /\
  (forall x owner, x ∈ extracted ->
     x.(InteractiveElement.mfeOwner) = Some owner ->
     owner ∈ names /\
     ownerBucket names x = if Js.truthy owner then Some owner else None) /\
  result.(InteractionMap.shell) ++ bucketed buckets ≡ₚ extracted /\
  length result.(InteractionMap.shell) +
  sum_list (length <$> (map_to_list buckets).*2)
  = length extracted /\
  (forall mfe, mfe ∈ a.(mfes) -> is_Some (buckets !! mfe.(name))).
Proof.
  cbv zeta. unfold mapInteractions. intros Hproto.
  set (extracted := extractInteractiveElements _ a).
  destruct (groupElements_spec a extracted) as (Hshell & Hown & Hp & Hperm).
  cbv zeta in Hshell, Hown, Hp.
  assert (Hlook : forall k,
            JsObject.own (InteractionMap.mfes (groupElements a extracted)) !! k
            = if decide (k ∈ map name (mfes a))
              then Some (List.filter
                           (fun x => bool_decide
                              (ownerBucket (map name (mfes a)) x = Some k))
                           extracted)
              else None).
  { intros k. rewrite Hown. destruct (decide (k ∈ map name (mfes a))) as [Hk|Hk].
    - rewrite decide_True; [done|]. split; [done|]. by intros ->.
    - rewrite decide_False; [done|]. by intros [? _]. }
  assert (Hperm' : InteractionMap.shell (groupElements a extracted) ++
                   bucketed (JsObject.own (InteractionMap.mfes (groupElements a extracted)))
                   ≡ₚ extracted).
  { rewrite <- Hperm at 3. unfold held. rewrite Hp, decide_False by done.
    cbn [default]. by rewrite app_nil_r. }
  split; [done|]. split; [done|]. split; [|split; [done|split]].
  - intros x owner Hx Hown'.
    assert (Hk : owner ∈ map name (mfes a)).
    { unfold extracted, extractInteractiveElements in Hx.
      apply list_elem_of_fmap in Hx as (t & -> & Ht).
      apply extractTagged_sound in Ht as (_ & Htag & _).
      rewrite Htag in Hown'. by apply inferMfeOwner_known in Hown'. }
    split; [done|]. unfold ownerBucket. rewrite Hown'.
    by rewrite bool_decide_eq_true_2, andb_true_r.
  - rewrite <- Hperm' at 3. rewrite length_app. f_equal. symmetry.
    apply length_join.
  - intros mfe Hm. rewrite Hlook, decide_True; [done|].
    apply list_elem_of_fmap. by exists mfe.
Qed.

End MapClaims.

Lemma mapInteractions_spec_witness :
  let doc := page [Dom.Elem orderButton [Dom.Text "Go"]] in
  let a := analysisOf ["mfe1-com"] in
  let result := @mapInteractions (parsedAs doc) (snapshotOf "") a in
  let buckets := result.(InteractionMap.mfes).(JsObject.own) in
  result.(InteractionMap.shell) ++ bucketed buckets
  ≡ₚ extractInteractiveElements doc a /\
  length result.(InteractionMap.shell) +
  sum_list (length <$> (map_to_list buckets).*2)
  = length (extractInteractiveElements doc a) /\
  is_Some (buckets !! "mfe1-com").
Proof.
  cbv zeta.
  destruct (@mapInteractions_spec
              (parsedAs (page [Dom.Elem orderButton [Dom.Text "Go"]]))
              (snapshotOf "") (analysisOf ["mfe1-com"]))
    as (_ & _ & _ & Hperm & Hcount & Hkeys).
  - intros Hin. vm_compute in Hin. apply list_elem_of_singleton in Hin.
    discriminate.
  - split; [exact Hperm|]. split; [exact Hcount|].
    apply (Hkeys {| name := "mfe1-com"; scripts := [] |}). left.
Defined.

(** The case the amended claim leaves out.  An MFE named [__proto__] gets
    no bucket, since the assignment meant to create it replaces the
    prototype of the object; a record owned by that MFE is pushed onto the
    array now standing for the prototype, and is found neither in the shell
    list nor in any bucket of the map. *)
Lemma mapInteractions_proto_name :
  let doc := page [Dom.Elem (bare "DIV" [("class", "mfe")])
                     [Dom.Elem (bare "BUTTON" []) [Dom.Text "x"]]] in
  let a := analysisOf ["__proto__"; "cart"] in
  let result := @mapInteractions (parsedAs doc) (snapshotOf "") a in
  let buckets := result.(InteractionMap.mfes).(JsObject.own) in
  InteractiveElement.mfeOwner <$> extractInteractiveElements doc a
  = [Some "__proto__"] /\
  result.(InteractionMap.shell) = [] /\
  map_to_list buckets = [("cart", [])] /\
  buckets !! "__proto__" = None /\
  result.(InteractionMap.mfes).(JsObject.proto)
  = Some (extractInteractiveElements doc a).
Proof. cbv zeta. repeat apply conj; by vm_compute. Qed.

(** C3 as stated fails for an MFE whose name is empty: a button hinting
    at any MFE is owned by it, since every hint contains the empty name,
    and is put in the shell list although its owner is a known MFE. *)
Lemma mapInteractions_empty_name :
  ~ (forall (parser : DomParser) snapshot a x owner,
       x ∈ extractInteractiveElements (JSDOM snapshot.(PageSnapshot.dom)) a ->
       x.(InteractiveElement.mfeOwner) = Some owner ->
       owner ∈ map name a.(mfes) ->
       exists bucket,
         (mapInteractions snapshot a).(InteractionMap.mfes).(JsObject.own) !! owner
         = Some bucket /\
         x ∈ bucket).
Proof.
  intros Hclaim.
  pose (d := bare "BUTTON" [("data-mfe", "x")]).
  pose (doc := page [Dom.Elem d []]).
  pose (x := describe doc (analysisOf [""]) (elementOf [0; 1] d []) "button").
  destruct (Hclaim (parsedAs doc) (snapshotOf "") (analysisOf [""]) x "")
    as (bucket & Hb & Hx).
  - vm_compute. left.
  - reflexivity.
  - vm_compute. left.
  - vm_compute in Hb. injection Hb as <-. by apply elem_of_nil in Hx.
Qed.

(** ** C10: elements an earlier pass has seen and skipped *)

Section SkippedClaims.
Context `{DomParser}.

(** C10.  An element of the document that the buttons query matches but
    whose role is not button, or that the links query is the first to
    match but whose role is not link, is marked as visited by that pass
    and skipped; no later pass takes it up, so no extracted record is
    built from it, and every record in the shell list or in a bucket of
    the resulting map was built from some other element. *)
Theorem skipped_element_never_extracted
  (snapshot : PageSnapshot.t) (a : MfeAnalysis) (e : Dom.Element) :
  let doc := JSDOM snapshot.(PageSnapshot.dom) in
  let result := mapInteractions snapshot a in
  e ∈ Dom.elementsOf [] doc.(Dom.documentElement) ->
  (Dom.matches buttonsQuery e = true /\ isButtonRole (getRole e) = false) \/
  (Dom.matches buttonsQuery e = false /\ Dom.matches linksQuery e = true /\
   isLinkRole (getRole e) = false) ->
  (forall t, t ∈ extractTagged doc a -> t.1.(Dom.path) <> e.(Dom.path)) /\
  (forall x,
     x ∈ result.(InteractionMap.shell) \/
     (exists k bucket,
        result.(InteractionMap.mfes).(JsObject.own) !! k = Some bucket /\
        x ∈ bucket) ->
     exists t, t ∈ extractTagged doc a /\ t.2 = x /\
               t.1.(Dom.path) <> e.(Dom.path)).
Proof.
  cbv zeta. intros He Hskip.
  assert (Hnever : forall t, t ∈ extractTagged (JSDOM (PageSnapshot.dom snapshot)) a ->
                             t.1.(Dom.path) <> e.(Dom.path)).
  { intros t (Hel & _ & Hcase)%extractTagged_sound Hpath.
    assert (Heq : t.1 = e) by by eapply elementsOf_same_path.
    rewrite Heq in Hcase.
    destruct Hskip as [[Hb Hr]|(Hb & Hl & Hr)],
      Hcase as [[Hb' Hr']|[(Hb' & Hl' & Hr')|(Hb' & Hl' & _)]]; congruence. }
  split; [done|]. intros x Hx.
  assert (Hin : x ∈ extractInteractiveElements (JSDOM (PageSnapshot.dom snapshot)) a).
  { unfold mapInteractions in Hx.
    destruct (groupElements_spec a
                (extractInteractiveElements (JSDOM (PageSnapshot.dom snapshot)) a))
      as (Hshell & Hlook & _).
    cbv zeta in Hshell, Hlook.
    destruct Hx as [Hx|(k & bucket & Hk & Hx)].
    - rewrite Hshell in Hx. apply list_elem_of_In, List.filter_In in Hx.
      apply list_elem_of_In. tauto.
    - rewrite Hlook in Hk. destruct (decide _); [|done]. injection Hk as <-.
      apply list_elem_of_In, List.filter_In in Hx.
      apply list_elem_of_In. tauto. }
  apply list_elem_of_fmap in Hin as (t & -> & Ht). exists t. auto.
Qed.

End SkippedClaims.

Lemma skipped_element_never_extracted_witness :
  extractTagged (page [Dom.Elem textboxButton []]) (analysisOf ["mfe1-com"]) = [] /\
  forall t, t ∈ extractTagged (page [Dom.Elem textboxButton []])
                  (analysisOf ["mfe1-com"]) ->
            t.1.(Dom.path) <> [0; 1].
Proof.
  split; [reflexivity|].
  apply (@skipped_element_never_extracted
           (parsedAs (page [Dom.Elem textboxButton []])) (snapshotOf "")
           (analysisOf ["mfe1-com"]) (elementOf [0; 1] textboxButton [])).
  - vm_compute. do 3 right. left.
  - left. split; reflexivity.
Defined.

Example order_button_example :
  let result :=
    @mapInteractions (parsedAs (page [Dom.Elem orderButton [Dom.Text "Go"]]))
      (snapshotOf "") (analysisOf ["mfe1-com"]) in
  result.(InteractionMap.shell)
  = [ {| InteractiveElement.role := "button";
         InteractiveElement.accessibleName := "Submit Order";
         InteractiveElement.selector := idSelector "button" "btn1";
         InteractiveElement.tagName := "button";
         InteractiveElement.mfeOwner := None |} ] /\
  result.(InteractionMap.mfes).(JsObject.own) !! "mfe1-com" = Some [].
Proof. split; reflexivity. Qed.

(** * Further properties of the code *)

(** * Further properties of the detector *)

Section GrouperMore.
Context `{UrlParser}.

Lemma join_scriptsOf_cons ks u urls :
  NoDup ks -> getDomain u ∈ ks ->
  mjoin ((fun d => scriptsOf d (u :: urls)) <$> ks)
  ≡ₚ u :: mjoin ((fun d => scriptsOf d urls) <$> ks).
Proof.
  induction 1 as [|k ks Hk Hnd IH]; [by intros ?%elem_of_nil|].
  intros Hin. csimpl. unfold scriptsOf at 1 3. cbn [List.filter].
  fold (scriptsOf k urls).
  destruct (String.eqb_spec (getDomain u) k) as [<-|Hne].
  - cbn [app]. apply Permutation_cons; [done|]. apply Permutation_app_head.
    apply Permutation_refl'. f_equal. apply list_fmap_ext.
    intros i d Hd%list_elem_of_lookup_2. unfold scriptsOf. cbn [List.filter].
    destruct (String.eqb_spec (getDomain u) d) as [<-|]; done.
  - rewrite IH by (by apply elem_of_cons in Hin as [?|?]).
    by rewrite Permutation_middle.
Qed.

Lemma join_scriptsOf ks urls :
  NoDup ks -> (forall u, u ∈ urls -> getDomain u ∈ ks) ->
  mjoin ((fun d => scriptsOf d urls) <$> ks) ≡ₚ urls.
Proof.
  intros Hnd. induction urls as [|u urls IH]; intros Hall.
  - apply Permutation_refl'. clear. induction ks as [|k ks IHk]; [done|].
    csimpl. exact IHk.
  - rewrite join_scriptsOf_cons by (done || apply Hall; left).
    apply Permutation_cons; [done|]. apply IH. intros v Hv. apply Hall. by right.
Qed.

Lemma groups_nil urls : groupScriptsByDomain urls = [] <-> urls = [].
Proof.
  rewrite groupScriptsByDomain_tabulate. unfold tabulate, origins. split.
  - intros Hnil%fmap_nil_inv. destruct urls as [|u urls]; [done|].
    assert (Hin : getDomain u ∈ firstSeen (map getDomain (u :: urls))).
    { apply elem_of_firstSeen. left. }
    rewrite Hnil in Hin. by apply elem_of_nil in Hin.
  - by intros ->.
Qed.

(** X1.  The groups split the script URLs: every URL, as often as it
    occurs, is in the group of its origin and in no other, so the groups
    together hold the URLs given, and no origin has two groups. *)
Theorem groupScriptsByDomain_partition (urls : list string) :
  let groups := groupScriptsByDomain urls in
  mjoin ((fun entry => (snd entry).(DomainGroup.scripts)) <$> groups) ≡ₚ urls /\
  NoDup (OrdMap.keys groups) /\
  (forall d g u, (d, g) ∈ groups -> u ∈ g.(DomainGroup.scripts) -> getDomain u = d) /\
  (groups = [] <-> urls = []).
Proof.
  cbv zeta. split; [|split; [|split; [|apply groups_nil]]];
    rewrite groupScriptsByDomain_tabulate.
  - unfold tabulate. rewrite <- list_fmap_compose.
    apply join_scriptsOf; [apply NoDup_firstSeen|].
    intros u Hu. apply elem_of_firstSeen, list_elem_of_fmap. by exists u.
  - rewrite keys_tabulate. apply NoDup_firstSeen.
  - rewrite <- groupScriptsByDomain_tabulate.
    intros d g u [_ ->]%elem_of_groups. cbn [groupOf DomainGroup.scripts].
    by intros [_ ?]%elem_of_scriptsOf.
Qed.

End GrouperMore.

Section ShellMore.
Context `{UrlParser}.

Lemma key_of_groups urls d g :
  (d, g) ∈ groupScriptsByDomain urls -> exists u, u ∈ urls /\ d = getDomain u.
Proof.
  intros [Hd _]%elem_of_groups.
  apply elem_of_firstSeen, list_elem_of_fmap in Hd as (u & -> & Hu). eauto.
Qed.

(** X2.  The shell of an analysis is the origin of one of the script URLs
    whenever there is a script URL at all, even if the page's own origin
    loaded none; only a snapshot without scripts has the page's origin for
    its shell by default. *)
Theorem detectMfe_shell_origin (snapshot : PageSnapshot.t) :
  let urls := snapshot.(PageSnapshot.scriptUrls) in
  let analysis := detectMfe snapshot in
  (urls = [] ->
   analysis = {| shell := getDomain snapshot.(PageSnapshot.url); mfes := [] |}) /\
  (urls <> [] -> exists u, u ∈ urls /\ analysis.(shell) = getDomain u).
Proof.
  cbv zeta. split.
  - unfold detectMfe. by intros ->.
  - intros Hne. unfold detectMfe. cbn [shell]. unfold determineShell.
    set (groups := groupScriptsByDomain _).
    set (pageDomain := getDomain (PageSnapshot.url snapshot)).
    destruct (OrdMap.get pageDomain groups) as [pg|] eqn:Hget.
    + apply get_Some_elem_of, key_of_groups in Hget as (u & Hu & Hd).
      destruct (negb _); [by exists u|].
      destruct (find _ groups) as [[d g]|] eqn:Hfind.
      * apply find_some in Hfind as [Hin%list_elem_of_In _].
        by apply key_of_groups in Hin.
      * destruct (mostScripts_fold groups 0 pageDomain)
          as [[-> _]|(before & d & g & after & Hsplit & -> & _)]; [by exists u|].
        apply (key_of_groups _ d g). fold groups. rewrite Hsplit.
        apply elem_of_app. right. left.
    + destruct (find _ groups) as [[d g]|] eqn:Hfind.
      * apply find_some in Hfind as [Hin%list_elem_of_In _].
        by apply key_of_groups in Hin.
      * destruct (mostScripts_fold groups 0 pageDomain)
          as [[_ Hle]|(before & d & g & after & Hsplit & -> & _)].
        -- exfalso.
           assert (Hpos : forall e, e ∈ groups -> 0 < scriptCount e)
             by apply groups_nonempty_scripts.
           destruct groups as [|e groups'] eqn:Hg.
           ++ apply Hne. by apply groups_nil.
           ++ assert (He : e ∈ e :: groups') by left.
              specialize (Hle e He). specialize (Hpos e He). lia.
        -- apply (key_of_groups _ d g). fold groups. rewrite Hsplit.
           apply elem_of_app. right. left.
Qed.

(** X3.  An analysis lists no MFE exactly when no script outside the shell
    origin is a module-federation indicator. *)
Theorem detectMfe_no_remotes (snapshot : PageSnapshot.t) :
  let analysis := detectMfe snapshot in
  analysis.(mfes) = [] <->
  (forall u, u ∈ snapshot.(PageSnapshot.scriptUrls) ->
     getDomain u <> analysis.(shell) -> isModuleFederationScript u = false).
Proof.
  cbv zeta. rewrite detectMfe_mfes.
  set (sh := shell (detectMfe snapshot)).
  set (urls := PageSnapshot.scriptUrls snapshot).
  assert (Hmf : forall u, isModuleFederationScript u
                          = isRemoteEntryUrl u || isSharingUrl u).
  { intros u. unfold isModuleFederationScript, isRemoteEntryUrl, isSharingUrl.
    destruct (Js.includes _ "remoteentry.js"); [done|]. cbn [orb].
    rewrite (orb_comm (Js.includes _ "webpack_sharing")).
    by destruct (_ || _). }
  split.
  - intros Hnil%fmap_nil_inv u Hu Hne.
    destruct (isModuleFederationScript u) eqn:Hu'; [|done]. exfalso.
    assert (Hin : (getDomain u, groupOf urls (getDomain u))
                  ∈ List.filter (isRemoteGroup sh) (groupScriptsByDomain urls)).
    { apply list_elem_of_In, List.filter_In. split.
      - apply list_elem_of_In, elem_of_groups. split; [|done].
        apply elem_of_firstSeen, list_elem_of_fmap. by exists u.
      - unfold isRemoteGroup. cbn [fst snd groupOf DomainGroup.hasRemoteEntry
          DomainGroup.hasWebpackSharing].
        apply andb_true_iff. split.
        + by apply negb_true_iff, String.eqb_neq.
        + rewrite Hmf in Hu'. apply orb_true_iff in Hu' as [Hr|Hs];
            apply orb_true_iff; [left|right]; apply existsb_scriptsOf;
            by exists u. }
    rewrite Hnil in Hin. by apply elem_of_nil in Hin.
  - intros Hall.
    destruct (List.filter _ _) as [|[d g] l] eqn:Hf; [done|]. exfalso.
    assert (Hin : (d, g) ∈ List.filter (isRemoteGroup sh) (groupScriptsByDomain urls))
      by (rewrite Hf; left).
    apply list_elem_of_In, List.filter_In in Hin as [Hin Hr].
    apply list_elem_of_In, elem_of_groups in Hin as [_ ->].
    unfold isRemoteGroup in Hr. cbn [fst snd groupOf DomainGroup.hasRemoteEntry
      DomainGroup.hasWebpackSharing] in Hr.
    apply andb_true_iff in Hr as [Hne%negb_true_iff%String.eqb_neq Hflag].
    apply orb_true_iff in Hflag as [Hf'|Hf'];
      apply existsb_scriptsOf in Hf' as (u & Hu & <- & Ht);
      specialize (Hall u Hu Hne); rewrite Hmf, Ht in Hall;
      by rewrite ?orb_true_r in Hall.
Qed.

End ShellMore.

(** ** Origins and names *)

Lemma startsWith_split p s :
  Js.startsWith p s = true -> s = p +:+ Js.dropChars (String.length p) s.
Proof.
  revert s. induction p as [|a p IH]; intros s; [done|].
  destruct s as [|b s]; [done|]. cbn [Js.startsWith].
  destruct (Ascii.eqb_spec a b) as [->|]; [|done]. intros Hp.
  change (String b s = String b (p +:+ Js.dropChars (String.length p) s)).
  f_equal. by apply IH.
Qed.

Lemma startsWith_append p a b :
  Js.startsWith (p +:+ a) (p +:+ b) = Js.startsWith a b.
Proof.
  induction p as [|c p IH]; [done|].
  change (Js.startsWith (String c (p +:+ a)) (String c (p +:+ b))
          = Js.startsWith a b).
  cbn [Js.startsWith]. by rewrite Ascii.eqb_refl.
Qed.

Lemma dropChars_append p s : Js.dropChars (String.length p) (p +:+ s) = s.
Proof. induction p as [|c p IH]; [done|]. exact IH. Qed.

Lemma startsWith_untilSlash s : Js.startsWith (Js.untilSlash s) s = true.
Proof.
  induction s as [|c s IH]; [done|]. cbn [Js.untilSlash].
  destruct (Ascii.eqb c "/"); [done|]. cbn [Js.startsWith].
  by rewrite Ascii.eqb_refl.
Qed.

Lemma untilSlash_no_slash s :
  allChars (fun c => negb (Ascii.eqb c "/")) (Js.untilSlash s) = true.
Proof.
  induction s as [|c s IH]; [done|]. cbn [Js.untilSlash].
  destruct (Ascii.eqb c "/") eqn:Hc; [done|]. cbn [allChars]. by rewrite Hc.
Qed.

Lemma untilSlash_fixed h :
  allChars (fun c => negb (Ascii.eqb c "/")) h = true -> Js.untilSlash h = h.
Proof.
  induction h as [|c h IH]; [done|]. cbn [allChars Js.untilSlash].
  intros [Hc Hh]%andb_true_iff. apply negb_true_iff in Hc. rewrite Hc.
  by rewrite IH.
Qed.

(** What a match of the fallback expression looks like. *)
Lemma matchOrigin_Some s m :
  Js.matchOrigin s = Some m ->
  exists scheme h,
    (scheme = "https://" \/ scheme = "http://") /\ m = scheme +:+ h /\
    h <> "" /\ allChars (fun c => negb (Ascii.eqb c "/")) h = true /\
    Js.startsWith m s = true.
Proof.
  unfold Js.matchOrigin.
  assert (Hone : forall scheme,
            (if Js.startsWith scheme s
             then if Js.truthy (Js.untilSlash (Js.dropChars (String.length scheme) s))
                  then Some (scheme +:+
                             Js.untilSlash (Js.dropChars (String.length scheme) s))
                  else None
             else None) = Some m ->
            exists h, m = scheme +:+ h /\ h <> "" /\
              allChars (fun c => negb (Ascii.eqb c "/")) h = true /\
              Js.startsWith m s = true).
  { intros scheme. destruct (Js.startsWith scheme s) eqn:Hs; [|done].
    destruct (Js.truthy _) eqn:Ht; [|done]. intros [= <-].
    eexists. split; [done|]. split; [by apply truthy_true|].
    split; [apply untilSlash_no_slash|].
    rewrite (startsWith_split _ _ Hs) at 2. rewrite startsWith_append.
    apply startsWith_untilSlash. }
  destruct (if Js.startsWith "https://" s then _ else _) as [m'|] eqn:Hhttps.
  - intros [= <-]. destruct (Hone _ Hhttps) as (h & ?). exists "https://", h. tauto.
  - intros Hhttp. destruct (Hone _ Hhttp) as (h & ?). exists "http://", h. tauto.
Qed.

Lemma matchOrigin_fixed s m : Js.matchOrigin s = Some m -> Js.matchOrigin m = Some m.
Proof.
  intros (scheme & h & Hscheme & -> & Hh%truthy_true & Hslash & _)%matchOrigin_Some.
  unfold Js.matchOrigin.
  destruct Hscheme as [-> | ->].
  - rewrite (startsWith_app "https://" h), (dropChars_append "https://" h).
    by rewrite (untilSlash_fixed _ Hslash), Hh.
  - assert (Hno : Js.startsWith "https://" ("http://" +:+ h) = false) by done.
    rewrite Hno.
    rewrite (startsWith_app "http://" h), (dropChars_append "http://" h).
    by rewrite (untilSlash_fixed _ Hslash), Hh.
Qed.

Section OriginClaims.
Context `{UrlParser}.

(** X4.  For a string the URL parser rejects, the origin is cut out of the
    string itself: it is a prefix of the string, either the string whole or
    a scheme http:// or https:// followed by at least one character and no
    slash; and taking the origin of that origin changes nothing, provided
    the parser rejects it too. *)
Theorem getDomain_fallback (s : string) :
  new_URL s = None ->
  Js.startsWith (getDomain s) s = true /\
  (getDomain s = s \/
   exists scheme h,
     (scheme = "https://" \/ scheme = "http://") /\ getDomain s = scheme +:+ h /\
     h <> "" /\ allChars (fun c => negb (Ascii.eqb c "/")) h = true) /\
  (new_URL (getDomain s) = None -> getDomain (getDomain s) = getDomain s).
Proof.
  intros Hs.
  assert (Hd : getDomain s
               = match Js.matchOrigin s with Some m => m | None => s end)
    by (unfold getDomain; by rewrite Hs).
  rewrite Hd. destruct (Js.matchOrigin s) as [m|] eqn:Hm.
  - pose proof (matchOrigin_Some _ _ Hm) as (scheme & h & ? & ? & ? & ? & ?).
    split; [done|]. split; [right; by exists scheme, h|].
    intros Hm'. unfold getDomain. by rewrite Hm', (matchOrigin_fixed _ _ Hm).
  - split; [apply startsWith_refl|]. split; [by left|]. by intros _.
Qed.

End OriginClaims.

Lemma getDomain_fallback_witness :
  @getDomain noUrlParser "https://cdn.example.com/app/remoteEntry.js"
  = "https://cdn.example.com" /\
  @getDomain noUrlParser (@getDomain noUrlParser "https://cdn.example.com/app/x.js")
  = "https://cdn.example.com" /\
  @getDomain noUrlParser "//cdn.example.com/x.js" = "//cdn.example.com/x.js".
Proof.
  pose proof (@getDomain_fallback noUrlParser
                "https://cdn.example.com/app/x.js" eq_refl) as (_ & _ & Hfix).
  split; [reflexivity|]. split; [|reflexivity].
  rewrite (Hfix eq_refl). reflexivity.
Defined.

Lemma sanitize_slug s :
  allChars Js.isSlugChar (Js.sanitize s) = true /\
  String.length (Js.sanitize s) = String.length s.
Proof.
  induction s as [|c s [IH1 IH2]]; [done|]. cbn [Js.sanitize allChars String.length].
  rewrite IH1, IH2. split; [|done].
  destruct (Js.isSlugChar c) eqn:Hc; [by rewrite Hc|done].
Qed.

Lemma replaceDots_no_dot s :
  allChars (fun c => negb (Ascii.eqb c ".")) (Js.replaceDots s) = true /\
  String.length (Js.replaceDots s) = String.length s.
Proof.
  induction s as [|c s [IH1 IH2]]; [done|].
  cbn [Js.replaceDots allChars String.length]. rewrite IH1, IH2. split; [|done].
  destruct (Ascii.eqb c ".") eqn:Hc; [done|]. by rewrite Hc.
Qed.

Section NameClaims.
Context `{UrlParser}.

(** X5.  The name made for an origin has a fixed shape.  When the origin
    does not parse as a URL the name is as long as the origin and has only
    letters, digits and hyphens.  When it parses and is not localhost with
    a port, the name is as long as the host name and has no dot. *)
Theorem extractMfeName_shape (domain : string) :
  (new_URL domain = None ->
   allChars Js.isSlugChar (extractMfeName domain) = true /\
   String.length (extractMfeName domain) = String.length domain) /\
  (forall u, new_URL domain = Some u ->
     u.(hostname) <> "localhost" \/ u.(port) = "" ->
     allChars (fun c => negb (Ascii.eqb c ".")) (extractMfeName domain) = true /\
     String.length (extractMfeName domain) = String.length u.(hostname)).
Proof.
  unfold extractMfeName. split.
  - intros ->. apply sanitize_slug.
  - intros u -> Hcase.
    assert (Hif : String.eqb (hostname u) "localhost" && Js.truthy (port u) = false).
    { destruct Hcase as [Hh%String.eqb_neq| ->]; [by rewrite Hh|].
      apply andb_false_r. }
    rewrite Hif. apply replaceDots_no_dot.
Qed.

End NameClaims.

(** * Further properties of the interaction mapper *)

Lemma filter_sublist {A} (P : A -> bool) (l : list A) :
  sublist (List.filter P l) l.
Proof.
  induction l as [|x l IH]; cbn [List.filter]; [constructor|].
  destruct (P x); by constructor.
Qed.

Lemma size_list_to_set_le (l : list string) :
  size (list_to_set l : gset string) <= length l.
Proof.
  induction l as [|x l IH]; [done|].
  rewrite list_to_set_cons, size_union_alt, size_singleton. cbn [length].
  assert (Hsub : size (list_to_set l ∖ {[x]} : gset string)
                 <= size (list_to_set l : gset string)).
  { apply subseteq_size. apply subseteq_difference_l. done. }
  lia.
Qed.

Lemma extracted_owner_known doc a x owner :
  x ∈ extractInteractiveElements doc a ->
  x.(InteractiveElement.mfeOwner) = Some owner -> owner ∈ map name a.(mfes).
Proof.
  unfold extractInteractiveElements.
  intros (t & -> & Ht)%list_elem_of_fmap Hown.
  apply extractTagged_sound in Ht as (_ & Htag & _).
  rewrite Htag in Hown. by apply inferMfeOwner_known in Hown.
Qed.

(** The placing loop reads a key only after the first loop has assigned
    it: the owner of an extracted record is the name of an MFE. *)
Lemma placed_owner_assigned doc a x owner :
  x ∈ extractInteractiveElements doc a ->
  x.(InteractiveElement.mfeOwner) = Some owner ->
  JsObject.get owner (fold_left initBucket a.(mfes) JsObject.empty) = Some [].
Proof.
  intros Hx Hown. rewrite initBucket_fold, decide_True; [done|].
  by eapply extracted_owner_known.
Qed.

Section MapMore.
Context `{DomParser}.

(** X6.  The keys of the map are the names of the analysis taken as a
    set, the name [__proto__] left out: MFEs that share a name share one
    bucket, and an MFE named [__proto__] gets none, its assignment changing
    the prototype of the object instead.  So there are at most as many
    buckets as MFEs, and exactly as many when the names differ and none is
    [__proto__]. *)
Theorem mapInteractions_keys (snapshot : PageSnapshot.t) (a : MfeAnalysis) :
  let result := mapInteractions snapshot a in
  let buckets := result.(InteractionMap.mfes).(JsObject.own) in
  let names := map name a.(mfes) in
  dom buckets = list_to_set names ∖ {[ "__proto__" ]} /\
  size buckets <= length a.(mfes) /\
  (NoDup names -> "__proto__" ∉ names -> size buckets = length a.(mfes)).
Proof.
  cbv zeta. unfold mapInteractions.
  destruct (groupElements_spec a
              (extractInteractiveElements (JSDOM (PageSnapshot.dom snapshot)) a))
    as (_ & Hlook & _). cbv zeta in Hlook.
  set (m := JsObject.own _) in *.
  assert (Hdom : dom m = list_to_set (map name (mfes a)) ∖ {[ "__proto__" ]}).
  { apply set_eq. intros k.
    rewrite elem_of_dom, Hlook, elem_of_difference, elem_of_list_to_set,
      not_elem_of_singleton.
    destruct (decide _); split; try done; try (by intros [? ?]). }
  split; [done|]. rewrite <- size_dom, Hdom. split.
  - rewrite <- (length_map name).
    etrans; [|apply size_list_to_set_le].
    apply subseteq_size, subseteq_difference_l. done.
  - intros Hnd Hproto. rewrite <- (length_map name), <- (size_list_to_set (C := gset string)) by done.
    f_equal. apply set_eq. intros k.
    rewrite elem_of_difference, not_elem_of_singleton. split; [by intros [? _]|].
    intros Hk. split; [done|]. intros ->. apply Hproto.
    by apply elem_of_list_to_set in Hk.
Qed.

(** X7.  A bucket holds only records owned by the MFE it is named after,
    and that name is not empty; the shell list holds only records with no
    owner or with the empty owner. *)
Theorem mapInteractions_owners (snapshot : PageSnapshot.t) (a : MfeAnalysis)
  (x : InteractiveElement.t) :
  let result := mapInteractions snapshot a in
  (x ∈ result.(InteractionMap.shell) ->
   x.(InteractiveElement.mfeOwner) = None \/
   x.(InteractiveElement.mfeOwner) = Some "") /\
  (forall k bucket,
     result.(InteractionMap.mfes).(JsObject.own) !! k = Some bucket ->
     x ∈ bucket -> x.(InteractiveElement.mfeOwner) = Some k /\ k <> "").
Proof.
  cbv zeta. unfold mapInteractions.
  set (extracted := extractInteractiveElements _ a).
  destruct (groupElements_spec a extracted) as (Hshell & Hlook & _).
  cbv zeta in Hshell, Hlook. split.
  - rewrite Hshell. intros [Hx Hb]%list_elem_of_In%List.filter_In.
    apply bool_decide_eq_true in Hb. unfold ownerBucket in Hb.
    destruct (InteractiveElement.mfeOwner x) as [o|] eqn:Ho; [|by left].
    right. apply list_elem_of_In in Hx.
    rewrite (bool_decide_eq_true_2 _ (extracted_owner_known _ _ _ _ Hx Ho)) in Hb.
    by destruct o.
  - intros k bucket. rewrite Hlook. destruct (decide _); [|done].
    intros [= <-] [_ Hb]%list_elem_of_In%List.filter_In.
    apply bool_decide_eq_true in Hb. unfold ownerBucket in Hb.
    destruct (InteractiveElement.mfeOwner x) as [o|]; [|done].
    destruct (Js.truthy o && _) eqn:Ht; [|done]. injection Hb as ->.
    split; [done|]. apply andb_true_iff in Ht as [Ht _]. by apply truthy_true.
Qed.

(** X8.  Grouping keeps the order of extraction: the shell list and every
    bucket list their records in the order in which they were extracted. *)
Theorem mapInteractions_order (snapshot : PageSnapshot.t) (a : MfeAnalysis) :
  let extracted :=
    extractInteractiveElements (JSDOM snapshot.(PageSnapshot.dom)) a in
  let result := mapInteractions snapshot a in
  sublist result.(InteractionMap.shell) extracted /\
  (forall k bucket,
     result.(InteractionMap.mfes).(JsObject.own) !! k = Some bucket ->
     sublist bucket extracted).
Proof.
  cbv zeta. unfold mapInteractions.
  set (extracted := extractInteractiveElements _ a).
  destruct (groupElements_spec a extracted) as (Hshell & Hlook & _).
  cbv zeta in Hshell, Hlook. split.
  - rewrite Hshell. apply filter_sublist.
  - intros k bucket. rewrite Hlook. destruct (decide _); [|done].
    intros [= <-]. apply filter_sublist.
Qed.

End MapMore.

(** ** Ownership *)

Lemma noHintMatch_steps e a doc :
  noHintMatch e a ->
  inferMfeOwner e a doc = firstSome (ancestorOwner a) (ancestorsOf doc e).
Proof.
  unfold noHintMatch. intros Hno. rewrite inferMfeOwner_steps.
  apply ownerBySteps_unhinted.
  destruct (hintOf e) as [hint|]; [|by left].
  destruct Hno as [->|Hf]; [by right; left|]. right. right. by exists hint.
Qed.

(** X9.  The owner inferred for an element is always the name of an MFE
    of the analysis; with an analysis that lists no MFE every element
    belongs to the shell. *)
Theorem inferMfeOwner_in_analysis (e : Dom.Element) (a : MfeAnalysis)
  (doc : Dom.Document) :
  (forall owner, inferMfeOwner e a doc = Some owner ->
     exists mfe, mfe ∈ a.(mfes) /\ mfe.(name) = owner) /\
  (a.(mfes) = [] -> inferMfeOwner e a doc = None).
Proof.
  assert (Hknown : forall owner, inferMfeOwner e a doc = Some owner ->
            exists mfe, mfe ∈ a.(mfes) /\ mfe.(name) = owner).
  { intros owner (mfe & Hn & Hm)%inferMfeOwner_known%list_elem_of_fmap. eauto. }
  split; [done|]. intros Hnil.
  destruct (inferMfeOwner e a doc) as [owner|] eqn:Ho; [|done].
  destruct (Hknown owner eq_refl) as (mfe & Hm & _). rewrite Hnil in Hm.
  by apply elem_of_nil in Hm.
Qed.

(** X10.  A generic marker decides for the first MFE of the list: when no
    hint attribute chose an owner and the nearest ancestor below the body
    has an id or class holding mfe, remote or microfrontend, the owner is
    the first MFE of the analysis, whatever its name and whatever the
    other names are. *)
Theorem inferMfeOwner_marker (e c : Dom.Element) (rest : list Dom.Element)
  (a : MfeAnalysis) (doc : Dom.Document) (first : MfeInfo) (others : list MfeInfo) :
  noHintMatch e a ->
  ancestorsOf doc e = c :: rest ->
  filled c "id" || filled c "class" = true ->
  hasMarker (blobOf c) = true ->
  a.(mfes) = first :: others ->
  inferMfeOwner e a doc = Some first.(name).
Proof.
  intros Hno Hanc Hfilled Hmark Hmfes.
  rewrite (noHintMatch_steps _ _ _ Hno), Hanc. cbn [firstSome].
  unfold ancestorOwner. rewrite Hfilled, Hmfes. cbn [find].
  unfold blobMatches. by rewrite Hmark, orb_true_r.
Qed.

Lemma inferMfeOwner_marker_witness :
  inferMfeOwner (elementOf [0; 0; 1] (bare "BUTTON" []) [])
    (analysisOf ["cart"; "search"])
    (page [Dom.Elem (bare "DIV" [("class", "remote-search")])
             [Dom.Elem (bare "BUTTON" []) []]])
  = Some "cart".
Proof.
  by apply (inferMfeOwner_marker _
              (elementOf [0; 1] (bare "DIV" [("class", "remote-search")])
                 [Dom.Elem (bare "BUTTON" []) []]) []
              (analysisOf ["cart"; "search"]) _
              {| name := "cart"; scripts := [] |}
              [{| name := "search"; scripts := [] |}]).
Defined.

(** X11.  The walk ends before the body: an element that is a child of
    the body and that no hint attribute gives an owner belongs to the
    shell, whatever the body and the root carry as id or class. *)
Theorem inferMfeOwner_child_of_body (e : Dom.Element) (a : MfeAnalysis)
  (doc : Dom.Document) (i : nat) (p : list nat) :
  noHintMatch e a ->
  e.(Dom.path) = i :: p -> doc.(Dom.body) = Some p ->
  inferMfeOwner e a doc = None.
Proof.
  intros Hno Hpath Hbody. rewrite (noHintMatch_steps _ _ _ Hno).
  unfold ancestorsOf. rewrite Hpath.
  assert (Hw : walked doc p = []).
  { destruct p as [|j q]; cbn [walked];
      destruct (Dom.elementAt doc _) as [c|] eqn:Hc; try done;
      apply elementAt_path in Hc; unfold Dom.isBody;
      rewrite Hbody, Hc; by rewrite bool_decide_eq_true_2. }
  by rewrite Hw.
Qed.

Lemma inferMfeOwner_child_of_body_witness :
  inferMfeOwner (elementOf [0; 1] (bare "BUTTON" []) []) (analysisOf ["cart"])
    {| Dom.documentElement :=
         Dom.Elem (bare "HTML" [("class", "remote")])
           [Dom.Elem (bare "HEAD" []) [];
            Dom.Elem (bare "BODY" [("id", "cart-root")])
              [Dom.Elem (bare "BUTTON" []) []]];
       Dom.body := Some [1] |}
  = None.
Proof.
  by apply (inferMfeOwner_child_of_body _ _ _ 0 [1]).
Defined.

(** ** Roles and selectors *)

(** X12.  The role of an element is never empty: an empty role attribute
    is passed over, and every other case gives a fixed word. *)
Theorem getRole_nonempty (e : Dom.Element) : getRole e <> "".
Proof.
  unfold getRole.
  destruct (Dom.getAttribute e "role") as [[|c s]|]; cbn [Js.truthyOpt Js.truthy
    Js.orEmpty]; try done;
    repeat match goal with
           | |- context [if ?b then _ else _] => destruct b
           end; done.
Qed.

(** The selector by cases on the attributes alone. *)
Lemma generateSelector_cases e role :
  generateSelector e role
  = if filled e "id" then idSelector role (Js.orEmpty (Dom.getAttribute e "id"))
    else if filled e "name" && isTag e ["input"; "select"]
    then nameSelector role (Js.orEmpty (Dom.getAttribute e "name"))
    else if Js.truthy (Js.trim (Js.orEmpty (Dom.getAttribute e "aria-label")))
    then labelSelector role (Js.orEmpty (Dom.getAttribute e "aria-label"))
    else tagSelector e role.
Proof.
  unfold generateSelector, filled, isTag, idSelector, nameSelector,
    labelSelector, tagSelector, roleSelector.
  cbn [existsb]. rewrite orb_false_r, nonBlank_trim.
  destruct (Js.truthyOpt (Dom.getAttribute e "id")); [by rewrite !append_assoc|].
  destruct (_ && _); [by rewrite !append_assoc|].
  destruct (Js.truthy (Js.trim _)); [by rewrite !append_assoc|].
  by destruct (_ && _).
Qed.

Lemma includes_prefix p rest : Js.includes (p +:+ rest) p = true.
Proof. apply includes_here, startsWith_app. Qed.

(** X13.  Every selector names the role: whatever the element, the
    selector holds the clause that tests the role attribute against the
    role given, at its start or right after the tag name. *)
Theorem generateSelector_has_role (e : Dom.Element) (role : string) :
  Js.includes (generateSelector e role) (roleSelector role) = true /\
  (Js.startsWith (roleSelector role) (generateSelector e role) = true \/
   generateSelector e role = lowerTag e +:+ roleSelector role).
Proof.
  rewrite generateSelector_cases.
  unfold idSelector, nameSelector, labelSelector, tagSelector.
  repeat match goal with
         | |- context [if ?b then _ else _] => destruct b
         end;
    (split; [first [apply includes_prefix | apply includes_suffix]
            | first [left; apply startsWith_app | by right]]).
Qed.

(** X14.  The selector is made from the tag name and the attributes of
    the element alone: its text and its children, which the source reads
    on the way, change nothing, nor do its [type] and [value], nor does its
    place in the document. *)
Theorem generateSelector_attributes_only (e e' : Dom.Element) (role : string) :
  e.(Dom.data).(Dom.tagName) = e'.(Dom.data).(Dom.tagName) ->
  e.(Dom.data).(Dom.attributes) = e'.(Dom.data).(Dom.attributes) ->
  generateSelector e role = generateSelector e' role.
Proof.
  intros Htag Hattrs. rewrite !generateSelector_cases.
  unfold filled, isTag, tagSelector, lowerTag, Dom.getAttribute.
  by rewrite Htag, Hattrs.
Qed.

Lemma generateSelector_attributes_only_witness :
  generateSelector (buttonElement [("title", "Pay")] "Pay now") "button"
  = generateSelector
      {| Dom.path := [3; 0; 1];
         Dom.data := {| Dom.tagName := "BUTTON";
                        Dom.attributes := [("title", "Pay")];
                        Dom.type := "reset"; Dom.value := "later" |};
         Dom.childNodes := [Dom.Text "Cancel";
                            Dom.Elem (bare "IMG" [("alt", "x")]) []] |}
      "button".
Proof. by apply generateSelector_attributes_only. Defined.

Lemma escapeQuotes_escaped s b : quotesEscaped b (Js.escapeQuotes s) = true.
Proof.
  revert b. induction s as [|c s IH]; intros b; [done|]. cbn [Js.escapeQuotes].
  destruct (Ascii.eqb c Js.dquote) eqn:Hc.
  - cbn [quotesEscaped].
    change (Ascii.eqb "\" Js.dquote) with false.
    change (Ascii.eqb Js.dquote "\") with false.
    rewrite !Ascii.eqb_refl, (IH false). by rewrite orb_true_r.
  - cbn [quotesEscaped]. by rewrite Hc, IH.
Qed.

(** X15.  In an escaped label every double quote comes right after a
    backslash, so that inside the label selector no quote of the label ends
    the quoted value; a label without a double quote is left as it is. *)
Theorem escapeQuotes_spec (label : string) :
  quotesEscaped false (Js.escapeQuotes label) = true /\
  (allChars (fun c => negb (Ascii.eqb c Js.dquote)) label = true ->
   Js.escapeQuotes label = label) /\
  String.length label <= String.length (Js.escapeQuotes label).
Proof.
  split; [apply escapeQuotes_escaped|]. split.
  - induction label as [|c s IH]; [done|]. cbn [allChars Js.escapeQuotes].
    intros [Hc Hs]%andb_true_iff. apply negb_true_iff in Hc. rewrite Hc.
    by rewrite IH.
  - induction label as [|c s IH]; [done|]. cbn [Js.escapeQuotes].
    destruct (Ascii.eqb c Js.dquote); cbn [String.length]; lia.
Qed.

(** ** What the map depends on *)

Lemma find_name_ext (P Q : MfeInfo -> bool) (l l' : list MfeInfo) :
  (forall m m', m.(name) = m'.(name) -> P m = Q m') ->
  map name l = map name l' ->
  name <$> find P l = name <$> find Q l'.
Proof.
  intros Hext. revert l'. induction l as [|m l IH]; intros [|m' l']; try done.
  cbn [map find]. intros [= Hm Hl]. rewrite (Hext m m' Hm).
  destruct (Q m'); [by cbn; f_equal|]. by apply IH.
Qed.

Lemma inferMfeOwner_names e a a' doc :
  map name a.(mfes) = map name a'.(mfes) ->
  inferMfeOwner e a doc = inferMfeOwner e a' doc.
Proof.
  intros Hnames. rewrite !inferMfeOwner_steps. unfold ownerBySteps.
  assert (Hanc : forall c, ancestorOwner a c = ancestorOwner a' c).
  { intros c. unfold ancestorOwner. destruct (_ || _); [|done].
    apply find_name_ext; [|done]. intros m m' Hm. unfold blobMatches.
    by rewrite Hm. }
  assert (Hwalk : firstSome (ancestorOwner a) (ancestorsOf doc e)
                  = firstSome (ancestorOwner a') (ancestorsOf doc e)).
  { induction (ancestorsOf doc e) as [|c l IH]; [done|]. cbn [firstSome].
    by rewrite Hanc, IH. }
  rewrite Hwalk.
  destruct (hintOf e) as [hint|]; [|done].
  destruct (Js.truthy hint); [|done].
  assert (Hfind : name <$> find (hintMatches hint) (mfes a)
                  = name <$> find (hintMatches hint) (mfes a')).
  { apply find_name_ext; [|done]. intros m m' Hm. unfold hintMatches.
    by rewrite Hm. }
  destruct (find _ (mfes a)) as [m|], (find _ (mfes a')) as [m'|];
    cbn in Hfind; congruence.
Qed.

Lemma fold_left_ext_in {A B} (f g : A -> B -> A) (l : list B) (x : A) :
  (forall y b, f y b = g y b) -> fold_left f l x = fold_left g l x.
Proof.
  intros Hfg. revert x. induction l as [|b l IH]; intros x; [done|].
  cbn [fold_left]. by rewrite Hfg, IH.
Qed.

Lemma extractTagged_names doc a a' :
  map name a.(mfes) = map name a'.(mfes) ->
  extractTagged doc a = extractTagged doc a'.
Proof.
  intros Hnames. unfold extractTagged, runPass.
  assert (Hvisit : forall w st x, visit doc a w st x = visit doc a' w st x).
  { intros w st x. unfold visit, describe.
    by rewrite (inferMfeOwner_names _ a a' _ Hnames). }
  by rewrite !(fold_left_ext_in _ _ _ _ (Hvisit _)).
Qed.

Lemma initBucket_names (l l' : list MfeInfo) :
  map name l = map name l' ->
  fold_left initBucket l JsObject.empty = fold_left initBucket l' JsObject.empty.
Proof.
  assert (Hfold : forall (k : list MfeInfo) o,
            fold_left initBucket k o
            = fold_left (fun o n => JsObject.set n [] o) (map name k) o).
  { induction k as [|m k IH]; intros o; [done|]. cbn [fold_left map]. apply IH. }
  intros Hnames. by rewrite !Hfold, Hnames.
Qed.

(** X16.  The interaction map is made from the markup of the snapshot and
    the names of the MFEs alone: the title, URL and scripts of the
    snapshot, the shell of the analysis and the scripts listed under each
    MFE play no part. *)
Theorem mapInteractions_depends_on `{DomParser}
  (snapshot snapshot' : PageSnapshot.t) (a a' : MfeAnalysis) :
  snapshot.(PageSnapshot.dom) = snapshot'.(PageSnapshot.dom) ->
  map name a.(mfes) = map name a'.(mfes) ->
  mapInteractions snapshot a = mapInteractions snapshot' a'.
Proof.
  intros Hdom Hnames. unfold mapInteractions, extractInteractiveElements.
  rewrite Hdom, (extractTagged_names _ a a' Hnames).
  unfold groupElements. by rewrite (initBucket_names _ _ Hnames).
Qed.

Lemma mapInteractions_depends_on_witness :
  @mapInteractions (parsedAs (page [Dom.Elem orderButton [Dom.Text "Go"]]))
    (snapshotOf "") (analysisOf ["mfe1-com"])
  = @mapInteractions (parsedAs (page [Dom.Elem orderButton [Dom.Text "Go"]]))
      scenario
      {| shell := "http://localhost:3000";
         mfes := [ {| name := "mfe1-com";
                      scripts := ["https://mfe1.com/remoteEntry.js"] |} ] |}.
Proof. by apply mapInteractions_depends_on. Defined.

(** ** Trimming *)

Lemma append_nil_r (s : string) : s +:+ "" = s.
Proof.
  induction s as [|c s IH]; [done|].
  change (String c (s +:+ "") = String c s). by f_equal.
Qed.

Lemma reverse_reverse s acc acc' :
  Js.reverse acc' (Js.reverse acc s) = Js.reverse (s +:+ acc') acc.
Proof.
  revert acc. induction s as [|c s IH]; intros acc; [done|].
  cbn [Js.reverse]. rewrite IH. done.
Qed.

Lemma reverse_involutive s : Js.reverse "" (Js.reverse "" s) = s.
Proof. rewrite reverse_reverse. cbn [Js.reverse]. apply append_nil_r. Qed.

Lemma reverse_append a b acc :
  Js.reverse acc (a +:+ b) = Js.reverse (Js.reverse acc a) b.
Proof.
  revert acc. induction a as [|c a IH]; intros acc; [done|].
  change (Js.reverse (String c acc) (a +:+ b)
          = Js.reverse (Js.reverse (String c acc) a) b). apply IH.
Qed.

Lemma reverse_acc s acc : Js.reverse acc s = Js.reverse "" s +:+ acc.
Proof.
  revert acc. induction s as [|c s IH]; intros acc; [done|].
  cbn [Js.reverse]. rewrite (IH (String c acc)), (IH (String c "")).
  by rewrite append_assoc.
Qed.

Lemma trimStart_length s : String.length (Js.trimStart s) <= String.length s.
Proof.
  induction s as [|c s IH]; [done|]. cbn [Js.trimStart].
  destruct (Js.isWhiteSpace c); cbn [String.length]; lia.
Qed.

Lemma trimStart_idem s : Js.trimStart (Js.trimStart s) = Js.trimStart s.
Proof.
  induction s as [|c s IH]; [done|]. cbn [Js.trimStart].
  destruct (Js.isWhiteSpace c) eqn:Hc; [done|]. cbn [Js.trimStart]. by rewrite Hc.
Qed.

Lemma trimStart_split s : exists w, s = w +:+ Js.trimStart s.
Proof.
  induction s as [|c s [w IH]]; [by exists ""|]. cbn [Js.trimStart].
  destruct (Js.isWhiteSpace c); [|by exists ""].
  exists (String c w).
  change (String c s = String c (w +:+ Js.trimStart s)). by f_equal.
Qed.

Lemma trimStart_prefix d x :
  Js.trimStart (d +:+ x) = d +:+ x -> Js.trimStart d = d.
Proof.
  destruct d as [|c d]; [done|].
  change (Js.trimStart (String c (d +:+ x)) = String c (d +:+ x)
          -> Js.trimStart (String c d) = String c d).
  cbn [Js.trimStart]. destruct (Js.isWhiteSpace c); [|done].
  intros Heq. pose proof (trimStart_length (d +:+ x)) as Hlen.
  rewrite Heq in Hlen. cbn [String.length] in Hlen. lia.
Qed.

Lemma trim_idem s : Js.trim (Js.trim s) = Js.trim s.
Proof.
  unfold Js.trim. set (a := Js.trimStart s).
  set (c := Js.trimStart (Js.reverse "" a)). set (d := Js.reverse "" c).
  assert (Ha : Js.trimStart a = a) by apply trimStart_idem.
  assert (Hc : Js.trimStart c = c) by apply trimStart_idem.
  destruct (trimStart_split (Js.reverse "" a)) as [w Hw]. fold c in Hw.
  assert (Had : a = d +:+ Js.reverse "" w).
  { rewrite <- (reverse_involutive a) at 1. rewrite Hw, reverse_append.
    apply reverse_acc. }
  rewrite Had in Ha. apply trimStart_prefix in Ha. rewrite Ha.
  unfold d at 1. by rewrite reverse_involutive, Hc.
Qed.

Lemma firstNonEmpty_trimmed l fallback :
  (forall c, c ∈ l -> Js.trim c = c) -> Js.trim fallback = fallback ->
  Js.trim (firstNonEmpty l fallback) = firstNonEmpty l fallback.
Proof.
  intros Hl Hf. induction l as [|c l IH]; [done|]. cbn [firstNonEmpty].
  destruct (Js.truthy c); [apply Hl; left|]. apply IH. intros x Hx.
  apply Hl. by right.
Qed.

(** X17.  An accessible name comes trimmed: whichever candidate gives the
    name, trimming it again changes nothing, the tag name of an element
    having no white space around it. *)
Theorem getAccessibleName_trimmed (e : Dom.Element) :
  Js.trim (lowerTag e) = lowerTag e ->
  Js.trim (getAccessibleName e) = getAccessibleName e.
Proof.
  intros Htag. rewrite getAccessibleName_candidates.
  apply firstNonEmpty_trimmed; [|done]. unfold nameCandidates. intros c Hc.
  repeat (apply elem_of_cons in Hc as [->|Hc];
          [first [apply trim_idem
                 | match goal with
                   | |- context [if ?b then _ else _] =>
                       destruct b; [apply trim_idem|done]
                   end]|]).
  by apply elem_of_nil in Hc.
Qed.

Lemma getAccessibleName_trimmed_witness :
  getAccessibleName (buttonElement [("aria-label", "  Pay now ")] "x") = "Pay now" /\
  Js.trim (getAccessibleName (buttonElement [("aria-label", "  Pay now ")] "x"))
  = getAccessibleName (buttonElement [("aria-label", "  Pay now ")] "x").
Proof.
  split; [reflexivity|]. by apply getAccessibleName_trimmed.
Defined.

(** ** The extraction as a whole *)

Lemma elementsOf_suffix n p x :
  x ∈ Dom.elementsOf p n -> exists q, x.(Dom.path) = q ++ p.
Proof. intros (q & Hq & _)%elementsOf_nodeAt. by exists q. Qed.

Lemma childElements_suffix p i cs x :
  x ∈ childElements p i cs -> exists q j, x.(Dom.path) = q ++ (i + j) :: p.
Proof.
  intros (j & c & _ & (q & Hq)%elementsOf_suffix)%elem_of_childElements.
  by exists q, j.
Qed.

Lemma path_index_differs (q q' p : list nat) (i k : nat) :
  q ++ i :: p = q' ++ k :: p -> i = k.
Proof.
  intros Heq.
  assert (Heq' : (q ++ [i]) ++ p = (q' ++ [k]) ++ p) by by rewrite <- !app_assoc.
  apply app_inv_tail in Heq'. by apply app_inj_tail in Heq' as [_ ?].
Qed.

Lemma NoDup_childElements p cs :
  Forall (fun c => forall p', NoDup (Dom.path <$> Dom.elementsOf p' c)) cs ->
  forall i, NoDup (Dom.path <$> childElements p i cs).
Proof.
  induction 1 as [|c cs Hc Hcs IH]; intros i; cbn [childElements].
  - constructor.
  - rewrite fmap_app. apply NoDup_app. split; [apply Hc|]. split; [|apply IH].
    intros path (x & -> & Hx)%list_elem_of_fmap (y & Hy & Hin)%list_elem_of_fmap.
    apply elementsOf_suffix in Hx as (q & Hq).
    apply childElements_suffix in Hin as (q' & j & Hq').
    rewrite Hq, Hq' in Hy. apply path_index_differs in Hy. lia.
Qed.

(** No two elements of a document have the same position. *)
Lemma NoDup_elementsOf n : forall p, NoDup (Dom.path <$> Dom.elementsOf p n).
Proof.
  induction n as [s|d cs IH] using Node_forall_ind; intros p; [constructor|].
  rewrite elementsOf_Elem. cbn [fmap list_fmap Dom.path]. apply NoDup_cons. split.
  - intros (x & Hp & Hx)%list_elem_of_fmap.
    apply childElements_suffix in Hx as (q & j & Hq). rewrite Hq in Hp.
    apply (f_equal length) in Hp. rewrite length_app in Hp. cbn in Hp. lia.
  - by apply NoDup_childElements.
Qed.

Section PassExact.
Variables (doc : Dom.Document) (a : MfeAnalysis) (wanted : string -> bool).

(** What one pass adds: the descriptions of the elements of the list not
    yet visited whose role the pass wants. *)
Lemma pass_elements_exact l st :
  NoDup (Dom.path <$> l) ->
  elements (fold_left (visit doc a wanted) l st)
  = elements st ++
    ((fun x => (x, describe doc a x (getRole x))) <$>
       List.filter (fun x => bool_decide (Dom.path x ∉ processedElements st) &&
                             wanted (getRole x)) l).
Proof.
  revert st. induction l as [|x l IH]; intros st Hnd; cbn [fold_left List.filter].
  - by rewrite app_nil_r.
  - apply NoDup_cons in Hnd as [Hx Hnd]. rewrite (IH _ Hnd). clear IH.
    destruct (decide (Dom.path x ∈ processedElements st)) as [Hin|Hin].
    + assert (Hv : visit doc a wanted st x = st)
        by (unfold visit; by rewrite bool_decide_eq_true_2).
      rewrite Hv.
      rewrite (bool_decide_eq_false_2 (Dom.path x ∉ processedElements st)) by tauto.
      done.
    + rewrite (bool_decide_eq_true_2 (Dom.path x ∉ processedElements st)) by done.
      cbn [andb].
      assert (Hfilter :
                List.filter (fun y => bool_decide
                                        (Dom.path y ∉ {[Dom.path x]} ∪ processedElements st)
                                      && wanted (getRole y)) l
                = List.filter (fun y => bool_decide (Dom.path y ∉ processedElements st)
                                        && wanted (getRole y)) l).
      { clear Hnd. induction l as [|y l IHl]; [done|]. cbn [List.filter].
        assert (Hy : bool_decide (Dom.path y ∉ {[Dom.path x]} ∪ processedElements st)
                     = bool_decide (Dom.path y ∉ processedElements st)).
        { apply bool_decide_ext. rewrite not_elem_of_union, not_elem_of_singleton.
          split; [tauto|]. intros ?. split; [|done].
          intros Heq. apply Hx. rewrite <- Heq. left. }
        rewrite Hy, IHl; [done|]. intros Hin'. apply Hx. by right. }
      destruct (wanted (getRole x)) eqn:Hw.
      * assert (Hv : visit doc a wanted st x
                     = {| elements :=
                            elements st ++ [(x, describe doc a x (getRole x))];
                          processedElements :=
                            {[Dom.path x]} ∪ processedElements st |})
          by (unfold visit; by rewrite bool_decide_eq_false_2, Hw).
        rewrite Hv. cbn [elements processedElements]. rewrite Hfilter.
        by rewrite <- app_assoc.
      * assert (Hv : visit doc a wanted st x
                     = {| elements := elements st;
                          processedElements :=
                            {[Dom.path x]} ∪ processedElements st |})
          by (unfold visit; by rewrite bool_decide_eq_false_2, Hw).
        rewrite Hv. cbn [elements processedElements]. by rewrite Hfilter.
Qed.

End PassExact.

Lemma filter_eq_true {A} (f : A -> bool) (l : list A) :
  filter (fun x => f x = true) l = List.filter f l.
Proof.
  induction l as [|x l IH]; [done|]. rewrite filter_cons. cbn [List.filter].
  rewrite IH. destruct (f x) eqn:Hf.
  - by rewrite decide_True.
  - by rewrite decide_False.
Qed.

Lemma filter_filter_and {A} (f g : A -> bool) (l : list A) :
  List.filter g (List.filter f l) = List.filter (fun x => f x && g x) l.
Proof.
  induction l as [|x l IH]; [done|]. cbn [List.filter].
  destruct (f x); cbn [List.filter andb]; [|done]. by rewrite IH.
Qed.

Lemma filter_ext_elem {A} (f g : A -> bool) (l : list A) :
  (forall x, x ∈ l -> f x = g x) -> List.filter f l = List.filter g l.
Proof.
  intros Hfg. apply List.filter_ext_in. intros x Hx%list_elem_of_In. by apply Hfg.
Qed.

Lemma querySelectorAll_filter doc sel :
  Dom.querySelectorAll doc sel
  = List.filter (Dom.matches sel) (Dom.elementsOf [] doc.(Dom.documentElement)).
Proof. unfold Dom.querySelectorAll. apply filter_eq_true. Qed.

Lemma NoDup_filter_paths (f : Dom.Element -> bool) (l : list Dom.Element) :
  NoDup (Dom.path <$> l) -> NoDup (Dom.path <$> List.filter f l).
Proof.
  intros Hnd. eapply sublist_NoDup; [done|]. apply fmap_sublist, filter_sublist.
Qed.

(** After a pass over a query, the visited positions of the document are
    those visited before and those the query matches. *)
Lemma pass_visited doc a wanted sel st x :
  x ∈ Dom.elementsOf [] doc.(Dom.documentElement) ->
  Dom.path x ∈ processedElements
                 (fold_left (visit doc a wanted) (Dom.querySelectorAll doc sel) st)
  <-> Dom.path x ∈ processedElements st \/ Dom.matches sel x = true.
Proof.
  intros Hx. rewrite pass_processed. split.
  - intros [?|(y & [Hy Hm]%elem_of_querySelectorAll & Hp)]; [by left|]. right.
    by rewrite (elementsOf_same_path doc x y Hx Hy Hp).
  - intros [?|Hm]; [by left|]. right. exists x. split; [|done].
    by apply elem_of_querySelectorAll.
Qed.

(** The extraction is the three passes one after the other. *)
Lemma extractTagged_exact doc a :
  extractTagged doc a
  = (fun x => (x, describe doc a x (getRole x))) <$> extractionOrder doc.
Proof.
  unfold extractTagged, runPass, extractionOrder.
  set (all := Dom.elementsOf [] (Dom.documentElement doc)).
  set (st0 := {| elements := []; processedElements := ∅ |}).
  set (st1 := fold_left _ (Dom.querySelectorAll doc buttonsQuery) st0).
  set (st2 := fold_left _ (Dom.querySelectorAll doc linksQuery) st1).
  assert (Hall : NoDup (Dom.path <$> all)) by apply NoDup_elementsOf.
  assert (Hq : forall sel, NoDup (Dom.path <$> Dom.querySelectorAll doc sel)).
  { intros sel. rewrite querySelectorAll_filter. by apply NoDup_filter_paths. }
  assert (H1 : forall x, x ∈ all ->
             bool_decide (Dom.path x ∉ processedElements st1)
             = negb (Dom.matches buttonsQuery x)).
  { intros x Hx. destruct (Dom.matches buttonsQuery x) eqn:Hm.
    - apply bool_decide_eq_false_2. intros Hn. apply Hn.
      apply pass_visited; [done|]. by right.
    - apply bool_decide_eq_true_2. intros Hin.
      apply (pass_visited doc a isButtonRole buttonsQuery st0 x Hx) in Hin.
      destruct Hin as [Hin|Hin]; [by apply not_elem_of_empty in Hin|congruence]. }
  assert (H2 : forall x, x ∈ all ->
             bool_decide (Dom.path x ∉ processedElements st2)
             = negb (Dom.matches buttonsQuery x) && negb (Dom.matches linksQuery x)).
  { intros x Hx. rewrite <- (H1 x Hx).
    destruct (Dom.matches linksQuery x) eqn:Hm.
    - rewrite andb_false_r. apply bool_decide_eq_false_2. intros Hn. apply Hn.
      apply pass_visited; [done|]. by right.
    - rewrite andb_true_r. apply bool_decide_ext.
      unfold st2. rewrite pass_visited by done. rewrite Hm. split.
      + intros Hn Hin. apply Hn. by left.
      + intros Hn [Hin|Hin]; [by apply Hn|congruence]. }
  assert (E1 : elements st1
               = (fun x => (x, describe doc a x (getRole x))) <$>
                 List.filter takenAsButton all).
  { unfold st1. rewrite pass_elements_exact by apply Hq. cbn [elements app].
    rewrite querySelectorAll_filter, filter_filter_and. fold all.
    change (elements st0) with (@nil (Dom.Element * InteractiveElement.t)).
    change (processedElements st0) with (∅ : gset (list nat)).
    cbn [app]. do 2 f_equal. }
  assert (E2 : elements st2
               = elements st1 ++
                 ((fun x => (x, describe doc a x (getRole x))) <$>
                  List.filter takenAsLink all)).
  { unfold st2. rewrite pass_elements_exact by apply Hq. fold st1.
    rewrite querySelectorAll_filter, filter_filter_and. fold all.
    do 2 f_equal. apply filter_ext_elem. intros x Hx. unfold takenAsLink.
    rewrite (H1 x Hx). by rewrite andb_assoc, (andb_comm (Dom.matches _ _)). }
  rewrite pass_elements_exact by apply Hq. fold st2. rewrite E2, E1.
  rewrite querySelectorAll_filter, filter_filter_and. fold all.
  rewrite !fmap_app, <- app_assoc. do 3 f_equal.
  apply filter_ext_elem. intros x Hx. unfold takenAsInput. rewrite (H2 x Hx).
  by destruct (Dom.matches buttonsQuery x), (Dom.matches linksQuery x),
       (Dom.matches inputsQuery x).
Qed.

Lemma lowerChar_idem c : Js.lowerChar (Js.lowerChar c) = Js.lowerChar c.
Proof. destruct c as [[] [] [] [] [] [] [] []]; reflexivity. Qed.

Lemma toLowerCase_idem s : Js.toLowerCase (Js.toLowerCase s) = Js.toLowerCase s.
Proof.
  induction s as [|c s IH]; [done|]. cbn [Js.toLowerCase].
  by rewrite lowerChar_idem, IH.
Qed.

Lemma elem_of_extractionOrder doc x :
  x ∈ extractionOrder doc
  <-> x ∈ Dom.elementsOf [] doc.(Dom.documentElement) /\
      (takenAsButton x = true \/ takenAsLink x = true \/ takenAsInput x = true).
Proof.
  unfold extractionOrder. cbv zeta.
  rewrite !elem_of_app, !list_elem_of_In, !List.filter_In. tauto.
Qed.

Lemma taken_once x :
  (takenAsButton x = true -> takenAsLink x = false /\ takenAsInput x = false) /\
  (takenAsLink x = true -> takenAsInput x = false).
Proof.
  unfold takenAsButton, takenAsLink, takenAsInput.
  destruct (Dom.matches buttonsQuery x), (Dom.matches linksQuery x);
    cbn [andb negb]; split; intros Ht; try done; try (split; done).
Qed.

Lemma NoDup_extractionOrder doc : NoDup (Dom.path <$> extractionOrder doc).
Proof.
  unfold extractionOrder. cbv zeta.
  set (all := Dom.elementsOf [] (Dom.documentElement doc)).
  assert (Hall : NoDup (Dom.path <$> all)) by apply NoDup_elementsOf.
  assert (Hin : forall f p, p ∈ Dom.path <$> List.filter f all ->
                  exists x, x ∈ all /\ f x = true /\ p = Dom.path x).
  { intros f p (x & -> & Hx)%list_elem_of_fmap.
    apply list_elem_of_In, List.filter_In in Hx as [Hx Hf].
    exists x. by rewrite list_elem_of_In. }
  rewrite !fmap_app. apply NoDup_app. split; [by apply NoDup_filter_paths|].
  split; [|apply NoDup_app; split; [by apply NoDup_filter_paths|
                                   split; [|by apply NoDup_filter_paths]]].
  - intros p (x & Hx & Hf & ->)%Hin [(y & Hy & Hg & Hp)%Hin|(y & Hy & Hg & Hp)%Hin]%elem_of_app;
      rewrite <- (elementsOf_same_path doc x y Hx Hy Hp) in Hg;
      destruct (taken_once x) as [Hb _]; destruct (Hb Hf); congruence.
  - intros p (x & Hx & Hf & ->)%Hin (y & Hy & Hg & Hp)%Hin.
    rewrite <- (elementsOf_same_path doc x y Hx Hy Hp) in Hg.
    destruct (taken_once x) as [_ Hl]. specialize (Hl Hf). congruence.
Qed.

(** X18.  The extraction lists the buttons first, then the links, then the
    form controls, each kind in document order.  An element is listed by the
    first of the three queries that matches it, provided its role is the
    one that pass is after, and its record is built from the element and
    from that role. *)
Theorem extractInteractiveElements_order (doc : Dom.Document) (a : MfeAnalysis) :
  extractInteractiveElements doc a
  = (fun x => describe doc a x (getRole x)) <$> extractionOrder doc.
Proof.
  unfold extractInteractiveElements. rewrite extractTagged_exact.
  change (map snd) with (fmap (M := list) (@snd Dom.Element InteractiveElement.t)).
  rewrite <- list_fmap_compose. done.
Qed.

(** X19.  No element of the document is extracted twice, whatever number of
    queries match it, so there are at most as many records as the document
    has elements. *)
Theorem extracted_at_most_once (doc : Dom.Document) (a : MfeAnalysis) :
  NoDup ((fun t => t.1.(Dom.path)) <$> extractTagged doc a) /\
  length (extractInteractiveElements doc a)
  <= length (Dom.elementsOf [] doc.(Dom.documentElement)).
Proof.
  unfold extractInteractiveElements. rewrite extractTagged_exact.
  assert (Hp : (fun t : Dom.Element * InteractiveElement.t => t.1.(Dom.path)) <$>
               ((fun x => (x, describe doc a x (getRole x))) <$> extractionOrder doc)
               = Dom.path <$> extractionOrder doc).
  { rewrite <- list_fmap_compose. done. }
  rewrite Hp. split; [apply NoDup_extractionOrder|].
  rewrite length_map, length_fmap.
  rewrite <- (length_fmap Dom.path (extractionOrder doc)).
  rewrite <- (length_fmap Dom.path (Dom.elementsOf [] _)).
  apply submseteq_length, NoDup_submseteq; [apply NoDup_extractionOrder|].
  intros p (x & -> & [Hx _]%elem_of_extractionOrder)%list_elem_of_fmap.
  by apply list_elem_of_fmap_2.
Qed.

(** X20.  The records come grouped by role: first those of role button,
    then those of role link, then those whose role is textbox, combobox,
    checkbox or radio.  No record has another role, and every record
    carries its tag name in lower case. *)
Theorem extracted_roles (doc : Dom.Document) (a : MfeAnalysis) :
  (exists buttons links inputs,
     extractInteractiveElements doc a = buttons ++ links ++ inputs /\
     (forall r, r ∈ buttons -> r.(InteractiveElement.role) = "button") /\
     (forall r, r ∈ links -> r.(InteractiveElement.role) = "link") /\
     (forall r, r ∈ inputs ->
        r.(InteractiveElement.role) ∈ ["textbox"; "combobox"; "checkbox"; "radio"])) /\
  (forall r, r ∈ extractInteractiveElements doc a ->
     Js.toLowerCase r.(InteractiveElement.tagName) = r.(InteractiveElement.tagName)).
Proof.
  unfold extractInteractiveElements. rewrite extractTagged_exact.
  change (map snd) with (fmap (M := list) (@snd Dom.Element InteractiveElement.t)).
  rewrite <- list_fmap_compose. unfold extractionOrder. cbv zeta.
  set (all := Dom.elementsOf [] (Dom.documentElement doc)).
  set (d := snd ∘ _).
  assert (Hd : forall f r, r ∈ d <$> List.filter f all ->
                 exists x, f x = true /\ r = describe doc a x (getRole x)).
  { intros f r (x & -> & Hx)%list_elem_of_fmap.
    apply list_elem_of_In, List.filter_In in Hx as [_ Hf]. by exists x. }
  split.
  - exists (d <$> List.filter takenAsButton all),
           (d <$> List.filter takenAsLink all),
           (d <$> List.filter takenAsInput all).
    rewrite !fmap_app. split; [done|]. repeat apply conj.
    + intros r (x & Hf & ->)%Hd. cbn. unfold takenAsButton, isButtonRole in Hf.
      apply andb_true_iff in Hf as [_ Hf]. by apply String.eqb_eq.
    + intros r (x & Hf & ->)%Hd. cbn. unfold takenAsLink, isLinkRole in Hf.
      apply andb_true_iff in Hf as [_ Hf]. by apply String.eqb_eq.
    + intros r (x & Hf & ->)%Hd. cbn. unfold takenAsInput, isInputRole in Hf.
      apply andb_true_iff in Hf as [_ Hf].
      apply existsb_exists in Hf as (k & Hk%list_elem_of_In & ->%String.eqb_eq).
      done.
  - intros r (x & -> & _)%list_elem_of_fmap. cbn. unfold lowerTag.
    apply toLowerCase_idem.
Qed.

Lemma attrIs_role_false x v :
  (forall r, Dom.getAttribute x "role" = Some r -> r <> v) ->
  Dom.attrIs x "role" v = false.
Proof.
  intros Hr. unfold Dom.attrIs. destruct (Dom.getAttribute x "role") as [r|]; [|done].
  change (String.eqb "role" "type") with false. cbn match.
  apply String.eqb_neq. by apply Hr.
Qed.

(** X21.  An element that no query matches is never extracted, whatever
    its role: one that is neither a button, an input, a select nor a
    textarea, that is no anchor with an href, and whose role attribute, if
    any, is none of the six roles.  So an element that owes the role button
    to an onclick or a tabindex attribute alone gives no record. *)
Theorem unmatched_element_never_extracted
  (doc : Dom.Document) (a : MfeAnalysis) (x : Dom.Element) :
  (forall r, Dom.getAttribute x "role" = Some r ->
             r ∉ ["button"; "link"; "textbox"; "combobox"; "checkbox"; "radio"]) ->
  lowerTag x ∉ ["button"; "input"; "select"; "textarea"] ->
  (lowerTag x = "a" -> Dom.hasAttribute x "href" = false) ->
  forall t, t ∈ extractTagged doc a -> t.1 <> x.
Proof.
  intros Hrole Htag Hhref t Ht Heq.
  assert (Hr : forall v, v ∈ ["button"; "link"; "textbox"; "combobox"; "checkbox"; "radio"] ->
                 Dom.attrIs x "role" v = false).
  { intros v Hv. apply attrIs_role_false. intros r Hs ->. by apply (Hrole v). }
  assert (Ht' : forall v, v ∈ ["button"; "input"; "select"; "textarea"] ->
                  String.eqb (Js.toLowerCase x.(Dom.data).(Dom.tagName)) v = false).
  { intros v Hv. apply String.eqb_neq. intros Hx. apply Htag.
    unfold lowerTag. by rewrite Hx. }
  assert (Ha : String.eqb (Js.toLowerCase x.(Dom.data).(Dom.tagName)) "a" &&
               Dom.hasAttribute x "href" = false).
  { destruct (String.eqb _ "a") eqn:Hx; [|done]. apply String.eqb_eq in Hx.
    by apply Hhref. }
  assert (Hb : Dom.matches buttonsQuery x = false).
  { unfold Dom.matches, buttonsQuery. cbn [existsb forallb Dom.matchesSimple].
    rewrite !Ht', !Hr by (rewrite !elem_of_cons; tauto). done. }
  assert (Hl : Dom.matches linksQuery x = false).
  { unfold Dom.matches, linksQuery. cbn [existsb forallb Dom.matchesSimple].
    rewrite andb_true_r, Ha, !Hr by (rewrite !elem_of_cons; tauto). done. }
  assert (Hi : Dom.matches inputsQuery x = false).
  { unfold Dom.matches, inputsQuery. cbn [existsb forallb Dom.matchesSimple].
    rewrite !Ht', !Hr by (rewrite !elem_of_cons; tauto). done. }
  apply extractTagged_sound in Ht as (_ & _ & Hcase). rewrite Heq in Hcase.
  destruct Hcase as [[? _]|[(_ & ? & _)|(_ & _ & ? & _)]]; congruence.
Qed.

Lemma unmatched_element_never_extracted_witness :
  getRole (elementOf [0; 1] (bare "DIV" [("onclick", "go()")]) []) = "button" /\
  forall t,
    t ∈ extractTagged (page [Dom.Elem (bare "DIV" [("onclick", "go()")]) []])
          (analysisOf ["mfe1-com"]) ->
    t.1 <> elementOf [0; 1] (bare "DIV" [("onclick", "go()")]) [].
Proof.
  split; [reflexivity|]. apply unmatched_element_never_extracted.
  - intros r Hr. vm_compute in Hr. discriminate.
  - rewrite !elem_of_cons, elem_of_nil. vm_compute. intuition discriminate.
  - intros Ha. vm_compute in Ha. discriminate.
Defined.

Lemma startsWith_app_l sub s b :
  Js.startsWith sub s = true -> Js.startsWith sub (s +:+ b) = true.
Proof.
  revert s. induction sub as [|c sub IH]; intros s; [done|].
  destruct s as [|d s]; [done|].
  change (String d s +:+ b) with (String d (s +:+ b)). cbn [Js.startsWith].
  destruct (Ascii.eqb c d); [apply IH|done].
Qed.

Lemma includes_app_l s b sub :
  Js.includes s sub = true -> Js.includes (s +:+ b) sub = true.
Proof.
  induction s as [|c s IH].
  - cbn [Js.includes]. rewrite orb_false_r. intros Hs.
    apply includes_here. by apply (startsWith_app_l sub "" b).
  - change (String c s +:+ b) with (String c (s +:+ b)). cbn [Js.includes].
    intros [Hs|Hs]%orb_true_iff; apply orb_true_iff.
    + left. by apply (startsWith_app_l sub (String c s) b).
    + right. by apply IH.
Qed.

(** X22.  The test for a Module Federation script looks for its markers
    anywhere in the URL and disregards letter case: a URL that passes still
    passes with anything put before or after it, in whatever case the whole
    is then written. *)
Theorem isModuleFederationScript_embedded (before u after v : string) :
  isModuleFederationScript u = true ->
  Js.toLowerCase v = Js.toLowerCase (before +:+ u +:+ after) ->
  isModuleFederationScript v = true.
Proof.
  unfold isModuleFederationScript. cbv zeta. intros Hu ->.
  rewrite !toLowerCase_app.
  assert (Hin : forall m, Js.includes (Js.toLowerCase u) m = true ->
                  Js.includes (Js.toLowerCase before +:+ Js.toLowerCase u +:+
                               Js.toLowerCase after) m = true).
  { intros m Hm. by apply includes_app_r, includes_app_l. }
  set (whole := Js.toLowerCase before +:+ Js.toLowerCase u +:+ Js.toLowerCase after)
    in *.
  destruct (Js.includes (Js.toLowerCase u) "remoteentry.js") eqn:H1.
  { by rewrite (Hin _ H1). }
  destruct (Js.includes whole "remoteentry.js"); [done|].
  destruct (Js.includes (Js.toLowerCase u) "__webpack_init_sharing__") eqn:H2.
  { by rewrite (Hin _ H2). }
  destruct (Js.includes (Js.toLowerCase u) "webpack_sharing") eqn:H3; [|done].
  rewrite (Hin _ H3). by rewrite orb_true_r.
Qed.

Lemma isModuleFederationScript_embedded_witness :
  isModuleFederationScript "HTTPS://CDN.EXAMPLE.COM/APP/REMOTEENTRY.JS?V=3" = true.
Proof.
  apply (isModuleFederationScript_embedded
           "https://cdn.example.com/app/" "remoteEntry.js" "?v=3").
  - reflexivity.
  - reflexivity.
Defined.
